(** * The AQL parser driver (arangod/Aql/Parser.cpp)

    A shallow embedding of [triagens::aql::Parser]: the write-query
    validator, the parse driver with its scanner life cycle, positioned
    error reporting and the parser's value stack, followed by the
    properties of these functions. *)

From Stdlib Require Import ZArith Ascii String DecimalString DecimalN Lia.
From Stdlib.Strings Require Byte.
From stdpp Require Import base option list gmap strings.

Open Scope Z_scope.

(** ** Data model *)

(** C strings ([char const*]) are sequences of characters; [addr] is a
    pointer value ([void*], [AstNode*]), [nullptr] being address 0. *)
Abbreviation cstring := (list ascii).
Abbreviation addr := N.
Definition nullptr : addr := 0%N.

Definition lit (s : string) : cstring := list_ascii_of_string s.

(** Modelled from the spec: the query classification, "READ, or one of the
    WRITE variants (insert/update/remove/replace/upsert)".  Parser.cpp only
    names [AQL_QUERY_READ]; the enumeration lives in Query.h. *)
Inductive QueryType : Type :=
| AQL_QUERY_READ
| AQL_QUERY_REMOVE
| AQL_QUERY_INSERT
| AQL_QUERY_UPDATE
| AQL_QUERY_REPLACE
| AQL_QUERY_UPSERT.

#[global] Instance QueryType_eq_dec : EqDecision QueryType.
Proof. solve_decision. Defined.

(** Modelled from the spec: error kinds are symbolic ("numeric/tag values
    owned by the wider system").  [TRI_ERROR_CODE n] stands for any other
    code of the wider system. *)
Inductive ErrorCode : Type :=
| TRI_ERROR_NO_ERROR
| TRI_ERROR_QUERY_PARSE
| TRI_ERROR_QUERY_MODIFY_IN_SUBQUERY
| TRI_ERROR_QUERY_MULTI_MODIFY
| TRI_ERROR_QUERY_COMPILE_TIME_OPTIONS
| TRI_ERROR_CODE (n : Z).

#[global] Instance ErrorCode_eq_dec : EqDecision ErrorCode.
Proof. solve_decision. Defined.

(** Modelled from the spec: scopes are "tagged MAIN or SUBQUERY". *)
Inductive ScopeType : Type :=
| AQL_SCOPE_MAIN
| AQL_SCOPE_SUBQUERY.

#[global] Instance ScopeType_eq_dec : EqDecision ScopeType.
Proof. solve_decision. Defined.

(** Modelled from the spec: the node variants of AstNode.h, of which
    Parser.cpp names the list and the array ("list-kind node",
    "keyed-collection node") and creates the "named element";
    [NODE_TYPE_OTHER] stands for every other variant. *)
Inductive AstNodeType : Type :=
| NODE_TYPE_LIST
| NODE_TYPE_ARRAY
| NODE_TYPE_ARRAY_ELEMENT
| NODE_TYPE_OTHER (tag : N).

#[global] Instance AstNodeType_eq_dec : EqDecision AstNodeType.
Proof. solve_decision. Defined.

(** Modelled from the spec: an AST node (AstNode.h) as the parser sees it
    through "create node, add member": its [type], its string value and
    its ordered members (pointers to other nodes). *)
Record AstNode : Type := mkAstNode {
  type : AstNodeType;
  stringValue : cstring;
  members : list addr
}.

(** Modelled from the spec: an entry of the query's error sink, "code,
    message" (the position is part of the message text). *)
Record ErrorRecord : Type := mkError {
  code : ErrorCode;
  message : option cstring
}.

(** Modelled from the spec: the Query Context (Query.h), which "owns raw
    text, error sink, query classification, resolved collection names". *)
Record Query : Type := mkQuery {
  queryString : cstring;
  queryType : QueryType;
  errors : list ErrorRecord;
  collectionNames : list cstring
}.

(** Modelled from the spec: the AST (Ast.h) with its scope tracker: the
    nodes it owns, addressed by pointer, the stack of active scopes
    (innermost last), the write target and the bind parameter names. *)
Record Ast : Type := mkAst {
  nodes : gmap N AstNode;
  scopes : list ScopeType;
  writeCollection : addr;
  bindParameters : list cstring
}.

(** Life cycle of the scanner handle [_scanner], and the calls made on
    it. *)
Inductive Scanner : Type :=
| ScannerNull
| ScannerLive
| ScannerDestroyed.

Inductive LexerCall : Type :=
| CallLexInit
| CallLexDestroy.

#[global] Instance LexerCall_eq_dec : EqDecision LexerCall.
Proof. solve_decision. Defined.

(** The parser object.  [_stack] is the [std::vector<void*>]: the back of
    the vector is the end of the list.  [lexerCalls] is the history of
    [Aqllex_init] / [Aqllex_destroy] calls, oldest first.  The source
    cursor ([_buffer], [_remainingLength], [_offset], [_marker]) is read by
    the scanner only and is left out. *)
Record Parser : Type := mkParser {
  _query : Query;
  _ast : Ast;
  _scanner : Scanner;
  _stack : list addr;
  lexerCalls : list LexerCall
}.

Record QueryResult : Type := mkQueryResult {
  result_collectionNames : list cstring;
  result_bindParameters : list cstring;
  result_json : gmap N AstNode
}.

(** ** Outcomes and the parser monad

    A member function either returns, lets a C++ exception escape, trips a
    [TRI_ASSERT] (the process stops), or has no defined behaviour. *)
Inductive Res (A : Type) : Type :=
| Returned (a : A) (p : Parser)
| Thrown (e : ErrorCode) (p : Parser)
| AssertFailed
| Undefined.

Arguments Returned {A} a p.
Arguments Thrown {A} e p.
Arguments AssertFailed {A}.
Arguments Undefined {A}.

Definition M (A : Type) : Type := Parser -> Res A.

Definition ret {A} (a : A) : M A := fun p => Returned a p.

Definition bind {A B} (m : M A) (k : A -> M B) : M B :=
  fun p =>
    match m p with
    | Returned a p' => k a p'
    | Thrown e p' => Thrown e p'
    | AssertFailed => AssertFailed
    | Undefined => Undefined
    end.

Notation "'let*' x ':=' m 'in' k" := (bind m (fun x => k))
  (at level 10, x name, m at level 100, k at level 200).
Notation "m ';;' k" := (bind m (fun _ => k))
  (at level 100, k at level 200, right associativity).

Definition gets {A} (f : Parser -> A) : M A := fun p => Returned (f p) p.
Definition modify (f : Parser -> Parser) : M unit := fun p => Returned tt (f p).
Definition throw {A} (e : ErrorCode) : M A := fun p => Thrown e p.
Definition undefined {A} : M A := fun _ => Undefined.

(** [TRI_ASSERT(cond)] *)
Definition TRI_ASSERT (cond : bool) : M unit :=
  fun p => if cond then Returned tt p else AssertFailed.

(** [try { body } catch (...) { handler; throw; }] *)
Definition try_catch_rethrow {A} (body : M A) (handler : M unit) : M A :=
  fun p =>
    match body p with
    | Thrown e p' =>
        match handler p' with
        | Returned _ p'' => Thrown e p''
        | Thrown e' p'' => Thrown e' p''
        | AssertFailed => AssertFailed
        | Undefined => Undefined
        end
    | r => r
    end.

(** Record updates. *)
Definition set_query (q : Query) (p : Parser) : Parser :=
  mkParser q (_ast p) (_scanner p) (_stack p) (lexerCalls p).
Definition set_ast (a : Ast) (p : Parser) : Parser :=
  mkParser (_query p) a (_scanner p) (_stack p) (lexerCalls p).
Definition set_stack (s : list addr) (p : Parser) : Parser :=
  mkParser (_query p) (_ast p) (_scanner p) s (lexerCalls p).
Definition set_nodes (h : gmap N AstNode) (a : Ast) : Ast :=
  mkAst h (scopes a) (writeCollection a) (bindParameters a).
Definition set_scopes (s : list ScopeType) (a : Ast) : Ast :=
  mkAst (nodes a) s (writeCollection a) (bindParameters a).

(** ** The value stack (Parser.cpp, pushStack / popStack / peekStack) *)

(** [_stack.push_back(value)] *)
Definition pushStack (value : addr) : M unit :=
  modify (fun p => set_stack (_stack p ++ [value]) p).

(** [TRI_ASSERT(! _stack.empty()); result = _stack.back();
    _stack.pop_back(); return result] *)
Definition popStack : M addr :=
  let* s := gets _stack in
  TRI_ASSERT (negb (bool_decide (s = []))) ;;
  let result := List.last s nullptr in
  modify (set_stack (removelast s)) ;;
  ret result.

(** [TRI_ASSERT(! _stack.empty()); return _stack.back()] *)
Definition peekStack : M addr :=
  let* s := gets _stack in
  TRI_ASSERT (negb (bool_decide (s = []))) ;;
  ret (List.last s nullptr).

(** ** External collaborators *)

(** Three functions whose code is outside Parser.cpp are left abstract:
    [AstNode::isConstant] (is the expression rooted at this node a
    compile-time constant), [Query::extractRegion] (the snippet of the
    query text around a line/column position) and, for the overload of
    [registerParseError] that takes a format, the expansion of a format
    string with its one substitution value.  [isConstant] is given the
    nodes of the AST and the pointer through which the code calls it; the
    code calls it through non-null pointers only, and through a pointer to
    no node of the AST the call has no defined behaviour, whatever the
    function answers there. *)
Class Collaborators : Type := {
  isConstant : gmap N AstNode -> addr -> bool;
  extractRegion : cstring -> Z -> Z -> cstring;
  expand_format : cstring -> cstring -> cstring
}.

(** The parser with one more record at the end of the error sink. *)
Definition add_error (c : ErrorCode) (details : option cstring) (p : Parser) : Parser :=
  let q := _query p in
  set_query (mkQuery (queryString q) (queryType q)
                     (errors q ++ [mkError c details]) (collectionNames q)) p.

(** Modelled from the spec: [Query::registerError] (Query.cpp).  Error
    records "accumulate on the Query Context"; a registration "may append
    to the error sink without aborting", the earliest record being the
    authoritative one. *)
Definition Query_registerError (c : ErrorCode) (details : option cstring) : M unit :=
  modify (add_error c details).

(** Modelled from the spec: [Query::type()], "classification() ->
    QueryClassification". *)
Definition Query_type : M QueryType := gets (fun p => queryType (_query p)).

Definition set_type (t : QueryType) (p : Parser) : Parser :=
  let q := _query p in
  set_query (mkQuery (queryString q) t (errors q) (collectionNames q)) p.

(** Modelled from the spec: [Query::type(QueryType)],
    "setClassification(kind)". *)
Definition Query_setType (t : QueryType) : M unit := modify (set_type t).

Definition with_scopes (s : list ScopeType) (p : Parser) : Parser :=
  set_ast (set_scopes s (_ast p)) p.

(** Modelled from the spec: [Scopes::start], scope "open(kind)" on the
    "ordered stack of scope records": the new scope becomes the innermost
    one. *)
Definition Scopes_start (t : ScopeType) : M unit :=
  modify (fun p => with_scopes (scopes (_ast p) ++ [t]) p).

(** Modelled from the spec: [Scopes::endCurrent], "closeCurrent()": the
    innermost scope is removed; with no scope active this is a programming
    defect and fails fast. *)
Definition Scopes_endCurrent : M unit :=
  let* s := gets (fun p => scopes (_ast p)) in
  TRI_ASSERT (negb (bool_decide (s = []))) ;;
  modify (with_scopes (removelast s)).

(** Modelled from the spec: [Scopes::numActive], "activeCount() -> int". *)
Definition Scopes_numActive : M nat := gets (fun p => length (scopes (_ast p))).

(** Modelled from the spec: [Ast::isInSubQuery], "the active scope is a
    subquery": the innermost active scope is tagged SUBQUERY. *)
Definition Ast_isInSubQuery : M bool :=
  gets (fun p => bool_decide (last (scopes (_ast p)) = Some AQL_SCOPE_SUBQUERY)).

Definition set_writeCollection (node : addr) (p : Parser) : Parser :=
  let a := _ast p in
  set_ast (mkAst (nodes a) (scopes a) node (bindParameters a)) p.

(** Modelled from the spec: [Ast::setWriteCollection], "record the target
    collection as the write target on the AST". *)
Definition Ast_setWriteCollection (node : addr) : M unit :=
  modify (set_writeCollection node).

(** Dereferencing a node pointer; a pointer to no node of the AST has no
    defined behaviour. *)
Definition deref (a : addr) : M AstNode :=
  fun p =>
    match nodes (_ast p) !! a with
    | Some n => Returned n p
    | None => Undefined
    end.

(** The node [n] with one more member at the end, and the parser with the
    nodes [h]. *)
Definition with_member (n : AstNode) (member : addr) : AstNode :=
  mkAstNode (type n) (stringValue n) (members n ++ [member]).

Definition with_nodes (h : gmap N AstNode) (p : Parser) : Parser :=
  set_ast (set_nodes h (_ast p)) p.

(** Modelled from the spec: [AstNode::addMember], "add member": the node
    is appended after the members already there ("preserving encounter
    order"). *)
Definition AstNode_addMember (self node : addr) : M unit :=
  let* n := deref self in
  modify (fun p => with_nodes (<[self := with_member n node]> (nodes (_ast p))) p).

(** The address of the next node the AST allocates: neither [nullptr] nor
    the address of a node it already owns. *)
Definition new_element (p : Parser) : addr :=
  fresh ({[nullptr]} ∪ dom (nodes (_ast p))).

(** Modelled from the spec: the AST's node factory, "create node": the AST
    "exclusively owns all nodes it allocates". *)
Definition Ast_createNode (n : AstNode) : M addr :=
  fun p =>
    let a := new_element p in
    Returned a (with_nodes (<[a := n]> (nodes (_ast p))) p).

(** Modelled from the spec: [Ast::createNodeArrayElement],
    "makeKeyedElement(name, node) -> node": a new element node named
    [attributeName] whose one member is the value node. *)
Definition Ast_createNodeArrayElement (attributeName : cstring) (expression : addr) : M addr :=
  Ast_createNode (mkAstNode NODE_TYPE_ARRAY_ELEMENT attributeName [expression]).

(** The parser after a call on the scanner that leaves the handle in
    state [s]. *)
Definition with_scanner (s : Scanner) (c : LexerCall) (p : Parser) : Parser :=
  mkParser (_query p) (_ast p) s (_stack p) (lexerCalls p ++ [c]).

(** Modelled from the spec: [Aqllex_init] of the generated scanner, by
    which the scanner handle is "acquired at parse start". *)
Definition Aqllex_init : M unit := modify (with_scanner ScannerLive CallLexInit).

(** Modelled from the spec: [Aqlset_extra] of the generated scanner; it
    hands the scanner a pointer to the parser and changes nothing the parser
    keeps. *)
Definition Aqlset_extra : M unit := ret tt.

(** Modelled from the spec: [Aqllex_destroy] of the generated scanner, by
    which the handle is "released"; destroying a handle that is not live
    has no defined behaviour. *)
Definition Aqllex_destroy : M unit :=
  fun p =>
    match _scanner p with
    | ScannerLive => Returned tt (with_scanner ScannerDestroyed CallLexDestroy p)
    | _ => Undefined
    end.

(** ** Formatting helpers for the diagnostic *)

Definition INT_MAX : Z := 2147483647.

Definition SPACE : ascii := " "%char.
Definition CARET : ascii := "^"%char.
Definition NUL : ascii := "000"%char.
Definition NEWLINE : ascii := "010"%char.

(** A [malloc]ed character buffer: each cell is uninitialised ([None]) or
    holds a character. *)
Abbreviation buffer := (list (option ascii)).

Definition malloc (size : nat) : buffer := replicate size None.

(** [buf[i] = c]; writing outside the allocation is undefined ([None]). *)
Definition store (buf : buffer) (i : nat) (c : ascii) : option buffer :=
  if decide (i < length buf)%nat then Some (<[i := Some c]> buf) else None.

(** Reading the buffer as a C string, as [%s] does: up to the first NUL;
    reading an uninitialised cell or past the allocation is undefined. *)
Fixpoint read_cstring (buf : buffer) : option cstring :=
  match buf with
  | [] => None
  | None :: _ => None
  | Some c :: rest =>
      if decide (c = NUL) then Some [] else cons c <$> read_cstring rest
  end.

(** [for (i = 0; i < (size_t) column; i++) arrowpointer[i] = ' ';] with [n]
    iterations left to run from index [i]; the result is the final [i] and
    the buffer. *)
Fixpoint fill_spaces (n : nat) (i : nat) (buf : buffer) : option (nat * buffer) :=
  match n with
  | O => Some (i, buf)
  | S n' => buf' ← store buf i SPACE; fill_spaces n' (S i) buf'
  end.

(** Lines 181-194 of Parser.cpp: the "neat pointer to the location of the
    error".  A negative [column] (converted to a huge [size_t]) or one for
    which [column + 10] overflows [int] has no defined behaviour. *)
Definition make_arrowpointer (column : Z) : option cstring :=
  if decide (0 <= column <= INT_MAX - 10) then
    let arrowpointer := malloc (Z.to_nat (column + 10)) in
    '(i, arrowpointer) ← fill_spaces (Z.to_nat column) 0 arrowpointer;
    '(i, arrowpointer) ←
      (if decide (0 < i)%nat then
         let i := Nat.pred i in
         arrowpointer ← store arrowpointer i CARET;
         Some (S i, arrowpointer)
       else Some (i, arrowpointer));
    arrowpointer ← store arrowpointer i CARET;
    let i := S i in
    arrowpointer ← store arrowpointer i CARET;
    let i := S i in
    arrowpointer ← store arrowpointer i NUL;
    read_cstring arrowpointer
  else None.

(** The marker line in closed form: two carets at column 0; otherwise the
    last of the [column] spaces is overwritten by a caret, giving
    [column - 1] spaces and three carets. *)
Definition caret_line (column : Z) : cstring :=
  if decide (column = 0) then [CARET; CARET]
  else replicate (Z.to_nat (column - 1)) SPACE ++ [CARET; CARET; CARET].

(** The marker line as the specification words it: "spaces up to the
    column followed by a two-character marker". *)
Definition spec_caret_line (column : Z) : cstring :=
  replicate (Z.to_nat column) SPACE ++ [CARET; CARET].

(** [%d] *)
Definition format_d (z : Z) : cstring := lit (NilZero.string_of_int (Z.to_int z)).

(** What the format ["%s near '%s' at position %d:%d:\n%s\n%s\n"] expands
    to, before it is cut to the size of the buffer. *)
Definition parse_error_text (data region : cstring) (line column1 : Z)
    (query arrowpointer : cstring) : cstring :=
  data ++ lit " near '" ++ region ++ lit "' at position "
    ++ format_d line ++ lit ":" ++ format_d column1 ++ lit ":" ++ [NEWLINE]
    ++ query ++ [NEWLINE] ++ arrowpointer ++ [NEWLINE].

(** The part of that text which precedes the query text. *)
Definition parse_error_head (data region : cstring) (line column1 : Z) : cstring :=
  data ++ lit " near '" ++ region ++ lit "' at position "
    ++ format_d line ++ lit ":" ++ format_d column1 ++ lit ":" ++ [NEWLINE].

(** [snprintf(buffer, size, ...)]: at most [size - 1] characters are kept. *)
Definition snprintf (size : nat) (text : cstring) : cstring :=
  take (size - 1) text.

Section ParserFunctions.
Context `{!Collaborators}.

(** ** Parser::configureWriteQuery *)

Definition configureWriteQuery (type : QueryType) (collectionNode optionNode : addr)
    : M bool :=
  TRI_ASSERT (negb (bool_decide (type = AQL_QUERY_READ))) ;;
  let* inSubQuery := Ast_isInSubQuery in
  if inSubQuery then
    Query_registerError TRI_ERROR_QUERY_MODIFY_IN_SUBQUERY None ;;
    ret false
  else
    let* oldType := Query_type in
    if negb (bool_decide (oldType = AQL_QUERY_READ)) then
      Query_registerError TRI_ERROR_QUERY_MULTI_MODIFY None ;;
      ret false
    else
      Ast_setWriteCollection collectionNode ;;
      let* notConstant :=
        gets (fun p => negb (bool_decide (optionNode = nullptr))
                       && negb (isConstant (nodes (_ast p)) optionNode)) in
      (if notConstant then
         Query_registerError TRI_ERROR_QUERY_COMPILE_TIME_OPTIONS None
       else ret tt) ;;
      Query_setType type ;;
      ret true.

(** ** Parser::registerError and Parser::registerParseError *)

Definition registerError (errorCode : ErrorCode) (data : option cstring) : M unit :=
  Query_registerError errorCode data.

(** The overload taking the message, the line and the column.  [data] is
    [None] for a null pointer. *)
Definition registerParseError (errorCode : ErrorCode) (data : option cstring)
    (line column : Z) : M unit :=
  TRI_ASSERT (negb (bool_decide (errorCode = TRI_ERROR_NO_ERROR))) ;;
  TRI_ASSERT (bool_decide (is_Some data)) ;;
  match data with
  | None => undefined
  | Some data =>
      let* query := gets (fun p => queryString (_query p)) in
      let region := extractRegion query line column in
      match make_arrowpointer column with
      | None => undefined
      | Some arrowpointer =>
          let buffer :=
            snprintf 512 (parse_error_text data region line (column + 1)
                                           query arrowpointer) in
          registerError errorCode (Some buffer)
      end
  end.

(** The overload taking a format and one substitution value: the message
    is formatted into a buffer of 512 characters and handed on. *)
Definition registerParseError_format (errorCode : ErrorCode) (format data : cstring)
    (line column : Z) : M unit :=
  let buffer := snprintf 512 (expand_format format data) in
  registerParseError errorCode (Some buffer) line column.

(** ** Parser::pushList and Parser::pushArray *)

Definition pushList (node : addr) : M unit :=
  let* list := peekStack in
  let* n := deref list in
  TRI_ASSERT (bool_decide (type n = NODE_TYPE_LIST)) ;;
  AstNode_addMember list node.

Definition pushArray (attributeName : cstring) (node : addr) : M unit :=
  let* array := peekStack in
  let* n := deref array in
  TRI_ASSERT (bool_decide (type n = NODE_TYPE_ARRAY)) ;;
  let* element := Ast_createNodeArrayElement attributeName node in
  AstNode_addMember array element.

(** ** The grammar driver *)

(** Modelled from the spec: the hooks the generated grammar ([Aqlparse],
    grammar.y) invokes on the parser and its collaborators while it
    reduces.  What a hook returns is the grammar's to use; [DoThrow] is a
    failure propagating out of a collaborator during the run. *)
Inductive Action : Type :=
| DoPushStack (value : addr)
| DoPopStack
| DoPeekStack
| DoPushList (node : addr)
| DoPushArray (attributeName : cstring) (node : addr)
| DoConfigureWriteQuery (type : QueryType) (collectionNode optionNode : addr)
| DoRegisterParseError (errorCode : ErrorCode) (data : option cstring) (line column : Z)
| DoRegisterError (errorCode : ErrorCode) (data : option cstring)
| DoScopeStart (t : ScopeType)
| DoScopeEnd
| DoCreateNode (n : AstNode)
| DoThrow (e : ErrorCode).

(** Modelled from the spec: one run of the grammar over a token stream,
    which "drives grammar reduction by repeatedly requesting tokens and
    invoking reduction hooks until input is exhausted or a grammar failure
    occurs": the hooks it invokes, in order, and the status it returns (0
    when the query is accepted). *)
Record GrammarRun : Type := mkGrammarRun {
  actions : list Action;
  status : Z
}.

(** One hook, and a sequence of hooks run until one of them does not
    return. *)
Definition perform (a : Action) : M unit :=
  match a with
  | DoPushStack value => pushStack value
  | DoPopStack => popStack ;; ret tt
  | DoPeekStack => peekStack ;; ret tt
  | DoPushList node => pushList node
  | DoPushArray attributeName node => pushArray attributeName node
  | DoConfigureWriteQuery type collectionNode optionNode =>
      configureWriteQuery type collectionNode optionNode ;; ret tt
  | DoRegisterParseError errorCode data line column =>
      registerParseError errorCode data line column
  | DoRegisterError errorCode data => registerError errorCode data
  | DoScopeStart t => Scopes_start t
  | DoScopeEnd => Scopes_endCurrent
  | DoCreateNode n => Ast_createNode n ;; ret tt
  | DoThrow e => throw e
  end.

Fixpoint perform_all (l : list Action) : M unit :=
  match l with
  | [] => ret tt
  | a :: l' => perform a ;; perform_all l'
  end.

(** Modelled from the spec: [Aqlparse], the generated grammar driver,
    replaying a run. *)
Definition Aqlparse (g : GrammarRun) : M Z :=
  perform_all (actions g) ;; ret (status g).




(** ** Parser::parse *)

Definition parse (g : GrammarRun) : M QueryResult :=
  Scopes_start AQL_SCOPE_MAIN ;;
  Aqllex_init ;;
  Aqlset_extra ;;
  try_catch_rethrow
    (let* rc := Aqlparse g in
     (if bool_decide (rc ≠ 0) then throw TRI_ERROR_QUERY_PARSE else ret tt) ;;
     Aqllex_destroy)
    Aqllex_destroy ;;
  Scopes_endCurrent ;;
  let* numActive := Scopes_numActive in
  TRI_ASSERT (bool_decide (numActive = 0%nat)) ;;
  let* q := gets _query in
  let* a := gets _ast in
  ret (mkQueryResult (collectionNames q) (bindParameters a) (nodes a)).

End ParserFunctions.

(** The parser as [parse] hands it to the grammar (MAIN scope opened,
    scanner acquired), and the result [parse] assembles at the end. *)
Definition started (p : Parser) : Parser :=
  with_scanner ScannerLive CallLexInit (with_scopes (scopes (_ast p) ++ [AQL_SCOPE_MAIN]) p).

Definition assemble (p : Parser) : QueryResult :=
  mkQueryResult (collectionNames (_query p)) (bindParameters (_ast p)) (nodes (_ast p)).

(** The hooks that open or close a scope. *)
Definition scope_hook (a : Action) : bool :=
  match a with
  | DoScopeStart _ | DoScopeEnd => true
  | _ => false
  end.

(** The state a call leaves behind, when there is one. *)
Definition final {A} (r : Res A) : option Parser :=
  match r with
  | Returned _ p => Some p
  | Thrown _ p => Some p
  | _ => None
  end.



(** The hooks whose code calls [Query::registerError]. *)
Definition is_registering (a : Action) : bool :=
  match a with
  | DoConfigureWriteQuery _ _ _ | DoRegisterParseError _ _ _ _ | DoRegisterError _ _ => true
  | _ => false
  end.

(** ** Concrete collaborators and parser states used in examples *)

(** A format with its [%s] directives replaced by the value. *)
Fixpoint substitute_s (format data : cstring) : cstring :=
  match format with
  | "%"%char :: "s"%char :: rest => data ++ substitute_s rest data
  | c :: rest => c :: substitute_s rest data
  | [] => []
  end.

(** Only nodes that are not lists count as constant here, and the region
    is the query text from the column on, at most 32 characters of it. *)
Definition demo_collaborators : Collaborators := {|
  isConstant := fun h a =>
    match h !! a with
    | Some n => negb (bool_decide (type n = NODE_TYPE_LIST))
    | None => false
    end;
  extractRegion := fun q line column => take 32 (drop (Z.to_nat column) q);
  expand_format := substitute_s
|}.

Definition demo_nodes : gmap N AstNode :=
  <[1%N := mkAstNode (NODE_TYPE_OTHER 7) (lit "c") []]>
  (<[2%N := mkAstNode NODE_TYPE_LIST [] []]>
  (<[3%N := mkAstNode NODE_TYPE_ARRAY [] []]>
  (<[4%N := mkAstNode (NODE_TYPE_OTHER 8) (lit "1") []]> ∅))).

Definition demo_parser (q : cstring) (t : QueryType) (sc : list ScopeType)
    (st : list addr) : Parser :=
  mkParser (mkQuery q t [] []) (mkAst demo_nodes sc nullptr []) ScannerNull st [].

(** A parser at the top level of a query, one inside a subquery, and one
    that has not started parsing. *)
Definition main_parser : Parser :=
  demo_parser (lit "INSERT {a:1} INTO c") AQL_QUERY_READ [AQL_SCOPE_MAIN] [].

Definition subquery_parser : Parser :=
  demo_parser (lit "LET sub = (FOR y IN d REMOVE y IN d RETURN y) RETURN sub")
              AQL_QUERY_READ [AQL_SCOPE_MAIN; AQL_SCOPE_SUBQUERY] [].

Definition fresh_parser : Parser :=
  demo_parser (lit "FOR x IN c RETURN x") AQL_QUERY_READ [] [].

Definition list_on_top_parser : Parser :=
  demo_parser (lit "RETURN [1, c]") AQL_QUERY_READ [AQL_SCOPE_MAIN] [2%N].

(** A query text of 600 characters. *)
Definition long_query_parser : Parser :=
  demo_parser (replicate 600 "a"%char) AQL_QUERY_READ [AQL_SCOPE_MAIN] [].

(** Grammar runs: a balanced one that is accepted, one accepted with a
    value left on the stack, one rejected after a syntax error, and one cut
    short by an exception. *)
Definition accepted_run : GrammarRun :=
  mkGrammarRun [DoPushStack 2; DoPushList 4; DoPopStack] 0.

Definition unbalanced_run : GrammarRun :=
  mkGrammarRun [DoPushStack 2] 0.

Definition rejected_run : GrammarRun :=
  mkGrammarRun
    [DoRegisterParseError TRI_ERROR_QUERY_PARSE (Some (lit "syntax error")) 1 8] 1.

Definition interrupted_run : GrammarRun :=
  mkGrammarRun [DoPushStack 2; DoThrow (TRI_ERROR_CODE 3)] 0.

(** Three write clauses, the second inside a subquery. *)
Definition three_writes : list Action :=
  [ DoConfigureWriteQuery AQL_QUERY_INSERT 1 nullptr;
    DoScopeStart AQL_SCOPE_SUBQUERY;
    DoConfigureWriteQuery AQL_QUERY_REMOVE 1 nullptr;
    DoScopeEnd;
    DoConfigureWriteQuery AQL_QUERY_UPDATE 1 nullptr ].


(** A query text of 435 characters: with it, the text formatted for a
    syntax error at line 1, column 3 is 512 characters long. *)
Definition boundary_query_parser : Parser :=
  demo_parser (replicate 435 "a"%char) AQL_QUERY_READ [AQL_SCOPE_MAIN] [].

(** A run that closes a scope it did not open. *)
Definition closing_run : GrammarRun :=
  mkGrammarRun [DoScopeEnd] 0.

(** Parsers whose query already holds an error. *)
Definition earlier_error : ErrorRecord :=
  mkError (TRI_ERROR_CODE 1203) (Some (lit "collection not found")).

Definition failed_main_parser : Parser :=
  add_error (code earlier_error) (message earlier_error) main_parser.

Definition failed_fresh_parser : Parser :=
  add_error (code earlier_error) (message earlier_error) fresh_parser.

(** ** Parser::Parser *)

(** The constructor: the parser refers to the query it is given and to a
    new AST ([new Ast(query, this)], here [ast]); no scanner yet, and an
    empty value stack. *)
Definition Parser_new (query : Query) (ast : Ast) : Parser :=
  mkParser query ast ScannerNull [] [].

(** ** Runs of stack hooks, and counting the hooks of a run *)

(** [pushStack] for each value in turn, and [n] calls of [popStack],
    collecting what they return in the order of the calls. *)
Fixpoint pushStacks (values : list addr) : M unit :=
  match values with
  | [] => ret tt
  | value :: rest => pushStack value ;; pushStacks rest
  end.

Fixpoint popStacks (n : nat) : M (list addr) :=
  match n with
  | O => ret []
  | S n' =>
      let* value := popStack in
      let* rest := popStacks n' in
      ret (value :: rest)
  end.

Definition is_push (a : Action) : bool :=
  match a with DoPushStack _ => true | _ => false end.

Definition is_pop (a : Action) : bool :=
  match a with DoPopStack => true | _ => false end.

Definition is_scope_start (a : Action) : bool :=
  match a with DoScopeStart _ => true | _ => false end.

Definition is_scope_end (a : Action) : bool :=
  match a with DoScopeEnd => true | _ => false end.

(** How many hooks of a run satisfy [f]. *)
Fixpoint count_hooks (f : Action -> bool) (l : list Action) : nat :=
  match l with
  | [] => 0%nat
  | a :: l' => ((if f a then 1 else 0) + count_hooks f l')%nat
  end.

(** * The RocksDB key comparator (arangod/Indexes/RocksDBKeyComparator.cpp) *)

(** ** Dumping bytes to the standard output *)

(** A [rocksdb::Slice] or a [std::string] is a sequence of bytes; the
    standard output is the sequence of characters written so far. *)
Abbreviation bytes := (list Byte.byte).

#[global] Instance byte_eq_decision : EqDecision Byte.byte := Byte.byte_eq_dec.

(** [std::cout << n] for an unsigned number. *)
Definition format_lu (n : N) : cstring := lit (NilZero.string_of_uint (N.to_uint n)).

(** The loop of [DumpData], with [n] iterations left to run from index [i];
    reading past the end of [data] is undefined ([None]). *)
Fixpoint DumpData_loop (data : bytes) (i n : nat) (out : cstring) : option cstring :=
  match n with
  | O => Some out
  | S n' =>
      c ← data !! i;
      DumpData_loop data (S i) n' (out ++ format_lu (Byte.to_N c) ++ lit " ")
  end.

Definition DumpData (data : bytes) (length : nat) (out : cstring) : option cstring :=
  out ← DumpData_loop data 0 length out;
  Some (out ++ [NEWLINE]).

(** [Dump(rocksdb::Slice const&)]; the overload for [std::string] has the
    same text. *)
Definition Dump (s : bytes) (out : cstring) : option cstring :=
  DumpData s (length s) (out ++ lit "SLICE: size: " ++ format_lu (N.of_nat (length s))
                             ++ lit ", data: ").

Definition Dump_string (s : bytes) (out : cstring) : option cstring :=
  DumpData s (length s) (out ++ lit "SLICE: size: " ++ format_lu (N.of_nat (length s))
                             ++ lit ", data: ").

(** ** Comparing two keys *)

(** The VelocyPack library and [VelocyPackHelper::compare] are outside
    this file and left abstract.  A [VPackSlice] is given by the bytes it
    starts at: [isArray], [length()] and [operator[]] of a slice, the
    [noneSlice()] and the comparison of two slices (with its [useUTF8]
    flag). *)
Class VelocyPack : Type := {
  isArray : bytes -> bool;
  VPack_length : bytes -> nat;
  VPack_at : bytes -> nat -> bytes;
  noneSlice : bytes;
  VelocyPackHelper_compare : bytes -> bytes -> bool -> Z
}.

(** [sizeof(TRI_idx_iid_t)]: index ids are 64-bit numbers, the eight bytes
    that the assertions of [Compare] ask each key to exceed. *)
Definition sizeof_TRI_idx_iid_t : nat := 8.

(** [memcmp] over the first [n] bytes.  The C standard fixes the sign of
    the result, that of the difference between the first two bytes that
    differ, taken as unsigned; here the result is that difference.  Reading
    past the end of either block is undefined ([None]). *)
Fixpoint memcmp (a b : bytes) (n : nat) {struct n} : option Z :=
  match n with
  | O => Some 0
  | S n' =>
      match a, b with
      | x :: a', y :: b' =>
          if decide (x = y) then memcmp a' b' n'
          else Some (Z.of_N (Byte.to_N x) - Z.of_N (Byte.to_N y))
      | _, _ => None
      end
  end.

(** [VPackSlice(slice.data() + sizeof(TRI_idx_iid_t))] *)
Definition extractKeySlice (slice : bytes) : bytes := drop sizeof_TRI_idx_iid_t slice.

(** What [Compare] comes to: it returns a result, stops on an assertion,
    or is undefined; in each case with what it has written so far. *)
Inductive CompareRes : Type :=
| CompareReturned (res : Z) (out : cstring)
| CompareAssertFailed (out : cstring)
| CompareUndefined.

Section KeyComparator.
Context `{!VelocyPack}.

(** The loop of [Compare] over the common length, with [n] iterations left
    to run from index [i]: [Some res] when it returns from inside the
    loop, [None] when it runs to its end. *)
Fixpoint Compare_loop (lSlice rSlice : bytes) (lLength rLength : nat) (i n : nat)
    : option Z :=
  match n with
  | O => None
  | S n' =>
      let res :=
        VelocyPackHelper_compare
          (if decide (i < lLength)%nat then VPack_at lSlice i else noneSlice)
          (if decide (i < rLength)%nat then VPack_at rSlice i else noneSlice)
          true in
      if decide (res ≠ 0) then Some res
      else Compare_loop lSlice rSlice lLength rLength (S i) n'
  end.

Definition Compare (lhs rhs : bytes) (out : cstring) : CompareRes :=
  if negb (bool_decide (8 < length lhs)%nat) then CompareAssertFailed out
  else if negb (bool_decide (8 < length rhs)%nat) then CompareAssertFailed out
  else
    match memcmp lhs rhs sizeof_TRI_idx_iid_t with
    | None => CompareUndefined
    | Some res =>
        if decide (res ≠ 0) then CompareReturned res out
        else
          let out := out ++ lit "COMPARE." ++ [NEWLINE] in
          let out := out ++ lit "LHS = " in
          match Dump lhs out with
          | None => CompareUndefined
          | Some out =>
              let out := out ++ lit "RHS = " in
              match Dump rhs out with
              | None => CompareUndefined
              | Some out =>
                  let lSlice := extractKeySlice lhs in
                  if negb (isArray lSlice) then CompareAssertFailed out
                  else
                    let rSlice := extractKeySlice rhs in
                    if negb (isArray rSlice) then CompareAssertFailed out
                    else
                      let lLength := VPack_length lSlice in
                      let rLength := VPack_length rSlice in
                      let n := if decide (lLength < rLength)%nat then lLength else rLength in
                      match Compare_loop lSlice rSlice lLength rLength 0 n with
                      | Some res => CompareReturned res out
                      | None =>
                          if decide (lLength ≠ rLength)
                          then CompareReturned
                                 (if decide (lLength < rLength)%nat then -1 else 1) out
                          else CompareReturned 0 out
                      end
              end
          end
    end.

End KeyComparator.

(** The members of an array slice, in order, and the comparison of two
    sequences that [Compare] is meant to be: member by member, the first
    difference deciding, and a sequence before its extensions. *)
Definition VPack_members `{!VelocyPack} (s : bytes) : list bytes :=
  VPack_at s <$> seq 0 (VPack_length s).

Fixpoint lexicographic (cmp : bytes -> bytes -> Z) (l r : list bytes) : Z :=
  match l, r with
  | [], [] => 0
  | [], _ :: _ => -1
  | _ :: _, [] => 1
  | x :: l', y :: r' => if decide (cmp x y ≠ 0) then cmp x y else lexicographic cmp l' r'
  end.

(** What [Compare] returns once the loop is over or has been left. *)
Definition after_loop (lLength rLength : nat) (r : option Z) : Z :=
  match r with
  | Some res => res
  | None =>
      if decide (lLength ≠ rLength)
      then (if decide (lLength < rLength)%nat then -1 else 1)
      else 0
  end.

(** What [Compare] writes when the index ids are equal. *)
Definition Compare_output (lhs rhs : bytes) (out : cstring) : option cstring :=
  out ← Dump lhs (out ++ lit "COMPARE." ++ [NEWLINE] ++ lit "LHS = ");
  Dump rhs (out ++ lit "RHS = ").

(** The bytes as [DumpData] writes them: each as an unsigned number in
    decimal, followed by a space. *)
Definition dumped_bytes (data : bytes) : cstring :=
  data ≫= (λ c, format_lu (Byte.to_N c) ++ lit " ").

(** Reading a dump back: numbers in decimal, each closed by a space, up to
    the end of the line.  [digits] holds the digits of the number being
    read, last one first. *)
Definition byte_of_digits (digits : cstring) : option Byte.byte :=
  d ← NilZero.uint_of_string (string_of_list_ascii (reverse digits));
  Byte.of_N (N.of_uint d).

Fixpoint undump (digits : cstring) (s : cstring) : option bytes :=
  match s with
  | [] => None
  | c :: rest =>
      if decide (c = SPACE) then
        b ← byte_of_digits digits;
        cons b <$> undump [] rest
      else if decide (c = NEWLINE) then
        (if decide (digits = []) then Some [] else None)
      else undump (c :: digits) rest
  end.

(** A toy VelocyPack for examples: a slice is an array when its first byte
    is 1, its second byte is then the number of members, the members are
    the single bytes that follow, and slices compare by their first byte. *)
Definition first_byte (s : bytes) : Z :=
  match s with
  | [] => 0
  | b :: _ => Z.of_N (Byte.to_N b)
  end.

Definition demo_velocypack : VelocyPack := {|
  isArray := fun s => bool_decide (first_byte s = 1);
  VPack_length := fun s => Z.to_nat (first_byte (drop 1 s));
  VPack_at := fun s i => take 1 (drop (2 + i) s);
  noneSlice := [Byte.x00];
  VelocyPackHelper_compare := fun a b _ => first_byte a - first_byte b
|}.

(** Two keys of index 7: the arrays [3, 5] and [3, 5, 0]; and a key of
    index 8. *)
Definition key_7_a : bytes :=
  [Byte.x00; Byte.x00; Byte.x00; Byte.x00; Byte.x00; Byte.x00; Byte.x00; Byte.x07;
   Byte.x01; Byte.x02; Byte.x03; Byte.x05].

Definition key_7_b : bytes :=
  [Byte.x00; Byte.x00; Byte.x00; Byte.x00; Byte.x00; Byte.x00; Byte.x00; Byte.x07;
   Byte.x01; Byte.x03; Byte.x03; Byte.x05; Byte.x00].

Definition key_8 : bytes :=
  [Byte.x00; Byte.x00; Byte.x00; Byte.x00; Byte.x00; Byte.x00; Byte.x00; Byte.x08;
   Byte.xff].

(** * Properties *)

(** ** The value stack *)

Lemma last_nil_iff {A} (l : list A) : last l = None ↔ l = [].
Proof. split; [apply last_None | by intros ->]. Qed.

Lemma List_last_default {A} (l : list A) (d x : A) :
  last l = Some x → List.last l d = x.
Proof.
  intros Hl. destruct (last_Some l x) as [[l' ->] _]; [done|].
  apply List.last_last.
Qed.

Lemma popStack_eq (p : Parser) :
  popStack p =
    match last (_stack p) with
    | Some x => Returned x (set_stack (removelast (_stack p)) p)
    | None => AssertFailed
    end.
Proof.
  unfold popStack, bind, gets, TRI_ASSERT, modify, ret.
  destruct (last (_stack p)) as [x|] eqn:Hl.
  - rewrite bool_decide_eq_false_2.
    + simpl. by rewrite (List_last_default _ nullptr x Hl).
    + intros E. by rewrite E in Hl.
  - apply last_nil_iff in Hl. by rewrite Hl.
Qed.

Lemma peekStack_eq (p : Parser) :
  peekStack p =
    match last (_stack p) with
    | Some x => Returned x p
    | None => AssertFailed
    end.
Proof.
  unfold peekStack, bind, gets, TRI_ASSERT, ret.
  destruct (last (_stack p)) as [x|] eqn:Hl.
  - rewrite bool_decide_eq_false_2.
    + simpl. by rewrite (List_last_default _ nullptr x Hl).
    + intros E. by rewrite E in Hl.
  - apply last_nil_iff in Hl. by rewrite Hl.
Qed.

(** C9.  Pushing [v] and then popping returns exactly [v] and restores the
    parser, stack included, to what it was; [popStack] returns the back of
    the vector and removes it, [peekStack] returns it and leaves the parser
    as it is; on an empty stack both trip their assertion. *)
Theorem stack_push_pop_peek (v : addr) (p : Parser) :
  (pushStack v ;; popStack) p = Returned v p
  ∧ popStack p =
      match last (_stack p) with
      | Some x => Returned x (set_stack (removelast (_stack p)) p)
      | None => AssertFailed
      end
  ∧ peekStack p =
      match last (_stack p) with
      | Some x => Returned x p
      | None => AssertFailed
      end
  ∧ popStack (set_stack [] p) = AssertFailed
  ∧ peekStack (set_stack [] p) = AssertFailed.
Proof.
  split; [|split; [apply popStack_eq|split; [apply peekStack_eq|done]]].
  unfold bind, pushStack, modify. rewrite popStack_eq. simpl.
  rewrite last_snoc, removelast_last. by destruct p.
Qed.

(** ** Appending to the composite on top of the stack *)

Lemma pushList_eq (node : addr) (p : Parser) :
  pushList node p =
    match last (_stack p) with
    | None => AssertFailed
    | Some top =>
        match nodes (_ast p) !! top with
        | None => Undefined
        | Some n =>
            if bool_decide (type n = NODE_TYPE_LIST)
            then Returned tt (with_nodes (<[top := with_member n node]> (nodes (_ast p))) p)
            else AssertFailed
        end
    end.
Proof.
  unfold pushList, bind. rewrite peekStack_eq.
  destruct (last (_stack p)) as [top|]; [|done].
  unfold deref. destruct (nodes (_ast p) !! top) as [n|] eqn:Hn; [|done].
  unfold TRI_ASSERT. destruct (bool_decide (type n = NODE_TYPE_LIST)); [|done].
  unfold AstNode_addMember, bind, deref. by rewrite Hn.
Qed.

Lemma new_element_fresh (p : Parser) :
  new_element p ≠ nullptr ∧ nodes (_ast p) !! new_element p = None.
Proof.
  pose proof (is_fresh ({[nullptr]} ∪ dom (nodes (_ast p)))) as Hf.
  fold (new_element p) in Hf. split.
  - intros E. apply Hf. rewrite E. set_solver.
  - apply not_elem_of_dom. set_solver.
Qed.

Lemma pushArray_eq (attributeName : cstring) (node : addr) (p : Parser) :
  pushArray attributeName node p =
    match last (_stack p) with
    | None => AssertFailed
    | Some top =>
        match nodes (_ast p) !! top with
        | None => Undefined
        | Some n =>
            if bool_decide (type n = NODE_TYPE_ARRAY)
            then Returned tt
                   (with_nodes
                      (<[top := with_member n (new_element p)]>
                         (<[new_element p :=
                              mkAstNode NODE_TYPE_ARRAY_ELEMENT attributeName [node]]>
                            (nodes (_ast p)))) p)
            else AssertFailed
        end
    end.
Proof.
  unfold pushArray, bind. rewrite peekStack_eq.
  destruct (last (_stack p)) as [top|]; [|done].
  unfold deref at 1. destruct (nodes (_ast p) !! top) as [n|] eqn:Hn; [|done].
  unfold TRI_ASSERT. destruct (bool_decide (type n = NODE_TYPE_ARRAY)); [|done].
  unfold Ast_createNodeArrayElement, Ast_createNode. fold (new_element p).
  unfold AstNode_addMember, bind, deref. simpl.
  destruct (new_element_fresh p) as [_ Hfresh].
  rewrite lookup_insert_ne by (intros E; rewrite E in Hfresh; congruence).
  rewrite Hn. unfold modify, with_nodes. by destruct p.
Qed.

Section Properties.
Context `{!Collaborators}.

Lemma pushList_all (top : addr) (l : list addr) :
  ∀ (p : Parser) (n : AstNode),
    last (_stack p) = Some top →
    nodes (_ast p) !! top = Some n →
    type n = NODE_TYPE_LIST →
    perform_all (DoPushList <$> l) p =
      Returned tt
        (with_nodes (<[top := mkAstNode (type n) (stringValue n) (members n ++ l)]>
                       (nodes (_ast p))) p).
Proof.
  induction l as [|x l IH]; intros p n Hs Hn Ht; simpl.
  - unfold ret, with_nodes. rewrite app_nil_r.
    replace (mkAstNode (type n) (stringValue n) (members n)) with n by (by destruct n).
    rewrite insert_id by done. by destruct p as [? [] ? ? ?].
  - unfold bind. rewrite pushList_eq, Hs, Hn, bool_decide_eq_true_2 by done.
    rewrite (IH _ (with_member n x)); simpl; try done.
    + unfold with_nodes. simpl. rewrite insert_insert_eq, <- app_assoc. done.
    + apply lookup_insert_eq.
Qed.

Lemma pushArray_all (top : addr) (kvs : list (cstring * addr)) :
  ∀ (p : Parser) (n : AstNode),
    last (_stack p) = Some top →
    nodes (_ast p) !! top = Some n →
    type n = NODE_TYPE_ARRAY →
    ∃ (p' : Parser) (elements : list addr),
      perform_all (uncurry DoPushArray <$> kvs) p = Returned tt p'
      ∧ _stack p' = _stack p
      ∧ nodes (_ast p') !! top =
          Some (mkAstNode (type n) (stringValue n) (members n ++ elements))
      ∧ (∀ a x, a ≠ top → nodes (_ast p) !! a = Some x → nodes (_ast p') !! a = Some x)
      ∧ Forall2 (λ e kv, nodes (_ast p') !! e =
                           Some (mkAstNode NODE_TYPE_ARRAY_ELEMENT kv.1 [kv.2]))
                elements kvs.
Proof.
  induction kvs as [|[k v] kvs IH]; intros p n Hs Hn Ht; simpl.
  - exists p, []. rewrite app_nil_r. repeat split; auto. by destruct n.
  - unfold bind. rewrite pushArray_eq, Hs, Hn, bool_decide_eq_true_2 by done.
    destruct (new_element_fresh p) as [_ Hfresh].
    set (e := new_element p) in *.
    assert (e ≠ top) as Hne by (intros E; rewrite E in Hfresh; congruence).
    match goal with |- context [perform_all _ ?q] => set (p1 := q) end.
    destruct (IH p1 (with_member n e)) as (p' & es & Hrun & Hst & Htop & Hkeep & Hall).
    + done.
    + simpl. apply lookup_insert_eq.
    + done.
    + exists p', (e :: es). split; [done|]. split; [done|]. split.
      * rewrite Htop. simpl. by rewrite <- app_assoc.
      * split.
        -- intros a x Ha Hx. apply Hkeep; [done|]. simpl.
           rewrite lookup_insert_ne by done.
           rewrite lookup_insert_ne by (intros E; rewrite E in Hfresh; congruence).
           done.
        -- constructor; [|done]. simpl. apply Hkeep; [done|]. simpl.
           rewrite lookup_insert_ne by done. apply lookup_insert_eq.
Qed.

(** C10.  With [top] the entry on top of the stack and [n] the node it
    points to: [pushList] requires [n] to be a list node and [pushArray]
    an array node (the assertion fails otherwise); each returns leaving
    the value stack as it was, and the only change is to the nodes of the
    AST: [top] gets one more member at the end, which for [pushArray] is a
    newly created element node holding the name and the value.  Repeated
    calls add the members in the order of the calls. *)
Theorem pushList_pushArray_frame (p : Parser) (top : addr) (n : AstNode) :
  last (_stack p) = Some top →
  nodes (_ast p) !! top = Some n →
  (∀ node,
     pushList node p =
       if bool_decide (type n = NODE_TYPE_LIST)
       then Returned tt (with_nodes (<[top := with_member n node]> (nodes (_ast p))) p)
       else AssertFailed)
  ∧ (∀ name node,
       pushArray name node p =
         if bool_decide (type n = NODE_TYPE_ARRAY)
         then Returned tt
                (with_nodes
                   (<[top := with_member n (new_element p)]>
                      (<[new_element p := mkAstNode NODE_TYPE_ARRAY_ELEMENT name [node]]>
                         (nodes (_ast p)))) p)
         else AssertFailed)
  ∧ (∀ h, _stack (with_nodes h p) = _stack p)
  ∧ new_element p ≠ top
  ∧ nodes (_ast p) !! new_element p = None
  ∧ (type n = NODE_TYPE_LIST →
     ∀ l, ∃ p',
       perform_all (DoPushList <$> l) p = Returned tt p'
       ∧ _stack p' = _stack p
       ∧ nodes (_ast p') !! top =
           Some (mkAstNode (type n) (stringValue n) (members n ++ l))
       ∧ ∀ a, a ≠ top → nodes (_ast p') !! a = nodes (_ast p) !! a)
  ∧ (type n = NODE_TYPE_ARRAY →
     ∀ kvs, ∃ p' elements,
       perform_all (uncurry DoPushArray <$> kvs) p = Returned tt p'
       ∧ _stack p' = _stack p
       ∧ nodes (_ast p') !! top =
           Some (mkAstNode (type n) (stringValue n) (members n ++ elements))
       ∧ (∀ a x, a ≠ top → nodes (_ast p) !! a = Some x → nodes (_ast p') !! a = Some x)
       ∧ Forall2 (λ e kv, nodes (_ast p') !! e =
                            Some (mkAstNode NODE_TYPE_ARRAY_ELEMENT kv.1 [kv.2]))
                 elements kvs).
Proof.
  intros Hs Hn.
  destruct (new_element_fresh p) as [_ Hfresh].
  repeat split.
  - intros node. by rewrite pushList_eq, Hs, Hn.
  - intros name node. by rewrite pushArray_eq, Hs, Hn.
  - intros E. rewrite E in Hfresh. congruence.
  - done.
  - intros Ht l. eexists. split; [by apply (pushList_all top l p n)|].
    simpl. split; [done|]. split; [apply lookup_insert_eq|].
    intros a Ha. by apply lookup_insert_ne.
  - intros Ht kvs. by apply pushArray_all.
Qed.

(** ** The write-query validator *)

Lemma configureWriteQuery_eq (t : QueryType) (c o : addr) (p : Parser) :
  configureWriteQuery t c o p =
    if bool_decide (t = AQL_QUERY_READ) then AssertFailed
    else if bool_decide (last (scopes (_ast p)) = Some AQL_SCOPE_SUBQUERY)
    then Returned false (add_error TRI_ERROR_QUERY_MODIFY_IN_SUBQUERY None p)
    else if bool_decide (queryType (_query p) = AQL_QUERY_READ)
    then Returned true
           (set_type t
              (if negb (bool_decide (o = nullptr)) && negb (isConstant (nodes (_ast p)) o)
               then add_error TRI_ERROR_QUERY_COMPILE_TIME_OPTIONS None
                              (set_writeCollection c p)
               else set_writeCollection c p))
    else Returned false (add_error TRI_ERROR_QUERY_MULTI_MODIFY None p).
Proof.
  unfold configureWriteQuery, bind, TRI_ASSERT, Ast_isInSubQuery, Query_type, gets.
  destruct (bool_decide (t = AQL_QUERY_READ)); simpl; [done|].
  destruct (bool_decide (last (scopes (_ast p)) = Some AQL_SCOPE_SUBQUERY)); simpl; [done|].
  destruct (bool_decide (queryType (_query p) = AQL_QUERY_READ)); simpl; [|done].
  destruct (negb (bool_decide (o = nullptr)) && negb (isConstant (nodes (_ast p)) o)); done.
Qed.

Lemma isInSubQuery_eq (p : Parser) (b : bool) :
  Ast_isInSubQuery p = Returned b p →
  bool_decide (last (scopes (_ast p)) = Some AQL_SCOPE_SUBQUERY) = b.
Proof. unfold Ast_isInSubQuery, gets. congruence. Qed.

(** C1.  A call with a write kind, made while the active scope is not a
    subquery and the query is still classified READ, returns [true], having
    recorded the target collection on the AST and set the classification to
    the requested kind.  The one other change is to the error sink: a
    COMPILE_TIME_OPTIONS record is appended exactly when the options node
    is non-null and not constant. *)
Theorem configureWriteQuery_records_write (t : QueryType) (c o : addr) (p : Parser) :
  t ≠ AQL_QUERY_READ →
  Ast_isInSubQuery p = Returned false p →
  queryType (_query p) = AQL_QUERY_READ →
  ∃ p',
    configureWriteQuery t c o p = Returned true p'
    ∧ writeCollection (_ast p') = c
    ∧ queryType (_query p') = t
    ∧ errors (_query p') =
        errors (_query p)
          ++ (if bool_decide (o ≠ nullptr ∧ isConstant (nodes (_ast p)) o = false)
              then [mkError TRI_ERROR_QUERY_COMPILE_TIME_OPTIONS None]
              else [])
    ∧ _stack p' = _stack p
    ∧ _scanner p' = _scanner p
    ∧ nodes (_ast p') = nodes (_ast p)
    ∧ scopes (_ast p') = scopes (_ast p).
Proof.
  intros Ht Hsub Hread. apply isInSubQuery_eq in Hsub.
  rewrite configureWriteQuery_eq, Hsub.
  rewrite (bool_decide_eq_false_2 _ Ht), (bool_decide_eq_true_2 _ Hread).
  eexists. split; [reflexivity|].
  destruct (decide (o = nullptr)) as [Ho|Ho], (isConstant (nodes (_ast p)) o) eqn:Hc;
    rewrite ?(bool_decide_eq_true_2 _ Ho), ?(bool_decide_eq_false_2 _ Ho);
    cbn [negb andb];
    first [ rewrite (bool_decide_eq_true_2 (o ≠ nullptr ∧ _)) by (by split)
          | rewrite (bool_decide_eq_false_2 (o ≠ nullptr ∧ _)) by (by intros [? ?]) ];
    by rewrite ?app_nil_r.
Qed.

(** C2.  [configureWriteQuery] is called for write kinds only: it asserts
    as much on entry.  For every write kind, every target and every options
    pointer, a call made while the active scope is a subquery returns
    [false], having appended one MODIFY_IN_SUBQUERY record to the error
    sink.  Nothing else is changed: the classification and the write
    target are what they were, and so are the query text, the collection
    names, the scopes and nodes of the AST, the value stack and the
    scanner. *)
Theorem configureWriteQuery_in_subquery (t : QueryType) (c o : addr) (p : Parser) :
  t ≠ AQL_QUERY_READ →
  Ast_isInSubQuery p = Returned true p →
  ∃ p',
    configureWriteQuery t c o p = Returned false p'
    ∧ errors (_query p') = errors (_query p) ++ [mkError TRI_ERROR_QUERY_MODIFY_IN_SUBQUERY None]
    ∧ queryType (_query p') = queryType (_query p)
    ∧ writeCollection (_ast p') = writeCollection (_ast p)
    ∧ queryString (_query p') = queryString (_query p)
    ∧ collectionNames (_query p') = collectionNames (_query p)
    ∧ _ast p' = _ast p
    ∧ _stack p' = _stack p
    ∧ _scanner p' = _scanner p
    ∧ lexerCalls p' = lexerCalls p.
Proof.
  intros Ht Hsub. apply isInSubQuery_eq in Hsub.
  exists (add_error TRI_ERROR_QUERY_MODIFY_IN_SUBQUERY None p).
  rewrite configureWriteQuery_eq, Hsub, (bool_decide_eq_false_2 _ Ht).
  by split_and!.
Qed.

Lemma registerParseError_eq (errorCode : ErrorCode) (data : option cstring)
    (line column : Z) (p : Parser) :
  registerParseError errorCode data line column p =
    if bool_decide (errorCode = TRI_ERROR_NO_ERROR) then AssertFailed
    else match data with
         | None => AssertFailed
         | Some text =>
             match make_arrowpointer column with
             | None => Undefined
             | Some arrowpointer =>
                 Returned tt
                   (add_error errorCode
                      (Some (snprintf 512
                               (parse_error_text text
                                  (extractRegion (queryString (_query p)) line column)
                                  line (column + 1) (queryString (_query p))
                                  arrowpointer))) p)
             end
         end.
Proof.
  unfold registerParseError, bind, TRI_ASSERT.
  destruct (bool_decide (errorCode = TRI_ERROR_NO_ERROR)); simpl; [done|].
  destruct data as [text|]; simpl; [|done].
  unfold gets. by destruct (make_arrowpointer column).
Qed.

Lemma Scopes_endCurrent_eq (p : Parser) :
  Scopes_endCurrent p =
    match last (scopes (_ast p)) with
    | Some _ => Returned tt (with_scopes (removelast (scopes (_ast p))) p)
    | None => AssertFailed
    end.
Proof.
  unfold Scopes_endCurrent, bind, gets, TRI_ASSERT, modify.
  destruct (last (scopes (_ast p))) eqn:Hl.
  - rewrite bool_decide_eq_false_2; [done|]. intros E. by rewrite E in Hl.
  - apply last_nil_iff in Hl. by rewrite Hl.
Qed.

(** What one hook leaves alone: none touches the scanner, and only
    [configureWriteQuery] touches the classification and the write
    target. *)
Lemma perform_frame (a : Action) (p p' : Parser) :
  final (perform a p) = Some p' →
  _scanner p' = _scanner p
  ∧ lexerCalls p' = lexerCalls p
  ∧ ((∀ t c o, a ≠ DoConfigureWriteQuery t c o) →
     queryType (_query p') = queryType (_query p)
     ∧ writeCollection (_ast p') = writeCollection (_ast p)).
Proof.
  destruct a; simpl; unfold bind;
    rewrite ?popStack_eq, ?peekStack_eq, ?pushList_eq, ?pushArray_eq,
      ?configureWriteQuery_eq, ?registerParseError_eq, ?Scopes_endCurrent_eq;
    unfold pushStack, registerError, Query_registerError, Scopes_start,
      Ast_createNode, modify, throw;
    intros Hf;
    try (split_and!; [ by repeat case_match; simplify_eq/= ..
                     | intros Hne; by destruct (Hne type0 collectionNode optionNode) ]);
    by repeat case_match; simplify_eq/=.
Qed.

Lemma perform_all_cons (a : Action) (l : list Action) (p : Parser) :
  perform_all (a :: l) p =
    match perform a p with
    | Returned _ p1 => perform_all l p1
    | Thrown e p1 => Thrown e p1
    | AssertFailed => AssertFailed
    | Undefined => Undefined
    end.
Proof. reflexivity. Qed.






(** ** The caret marker and the diagnostic text *)

Lemma store_middle (pre rest : buffer) (x : option ascii) (c : ascii) :
  store (pre ++ x :: rest) (length pre) c = Some (pre ++ Some c :: rest).
Proof.
  unfold store. rewrite decide_True by (rewrite length_app; simpl; lia).
  rewrite insert_app_r_alt by lia. by rewrite Nat.sub_diag.
Qed.

Lemma fill_spaces_spec (n : nat) :
  ∀ (pre rest : buffer),
    fill_spaces n (length pre) (pre ++ replicate n None ++ rest) =
      Some ((length pre + n)%nat, pre ++ replicate n (Some SPACE) ++ rest).
Proof.
  induction n as [|n IH]; intros pre rest; simpl.
  - by rewrite Nat.add_0_r.
  - rewrite store_middle. simpl.
    replace (pre ++ Some SPACE :: replicate n None ++ rest)
      with ((pre ++ [Some SPACE]) ++ replicate n None ++ rest)
      by (by rewrite <- app_assoc).
    replace (S (length pre)) with (length (pre ++ [Some SPACE]))
      by (rewrite length_app; simpl; lia).
    rewrite IH. rewrite length_app, <- app_assoc. simpl.
    f_equal. f_equal. lia.
Qed.

Lemma read_cstring_spec (s : cstring) (rest : buffer) :
  NUL ∉ s → read_cstring ((Some <$> s) ++ Some NUL :: rest) = Some s.
Proof.
  induction s as [|c s IH]; intros Hs; csimpl.
  - done.
  - rewrite decide_False by set_solver. rewrite IH by set_solver. done.
Qed.

Lemma write_carets (s : cstring) (rest : buffer) :
  NUL ∉ s →
  (arrowpointer ← store ((Some <$> s) ++ None :: None :: None :: rest) (length s) CARET;
   arrowpointer ← store arrowpointer (S (length s)) CARET;
   arrowpointer ← store arrowpointer (S (S (length s))) NUL;
   read_cstring arrowpointer) = Some (s ++ [CARET; CARET]).
Proof.
  intros Hs.
  replace (length s) with (length (Some <$> s)) at 1 by apply length_fmap.
  rewrite store_middle. simpl.
  replace ((Some <$> s) ++ Some CARET :: None :: None :: rest)
    with ((Some <$> s ++ [CARET]) ++ None :: None :: rest)
    by (rewrite fmap_app, <- app_assoc; done).
  replace (S (length s)) with (length (Some <$> s ++ [CARET])) at 1
    by (rewrite length_fmap, length_app; simpl; lia).
  rewrite store_middle. simpl.
  replace ((Some <$> s ++ [CARET]) ++ Some CARET :: None :: rest)
    with ((Some <$> s ++ [CARET; CARET]) ++ None :: rest)
    by (rewrite !fmap_app, <- !app_assoc; done).
  replace (S (S (length s))) with (length (Some <$> s ++ [CARET; CARET]))
    by (rewrite length_fmap, length_app; simpl; lia).
  rewrite store_middle. simpl.
  apply read_cstring_spec.
  rewrite elem_of_app. intros [?|Hin]; [done|].
  by repeat (apply elem_of_cons in Hin as [?|Hin]; [done|]); apply elem_of_nil in Hin.
Qed.

Lemma NUL_not_in_spaces (n : nat) : NUL ∉ replicate n SPACE.
Proof. intros [E _]%elem_of_replicate. done. Qed.

Lemma make_arrowpointer_eq (column : Z) :
  0 <= column <= INT_MAX - 10 →
  make_arrowpointer column = Some (caret_line column).
Proof.
  intros Hc. unfold make_arrowpointer, caret_line. rewrite decide_True by done.
  destruct (decide (column = 0)) as [->|Hz]; [reflexivity|].
  set (m := Z.to_nat (column - 1)).
  replace (Z.to_nat column) with (S m) by lia.
  replace (Z.to_nat (column + 10)) with (S m + (1 + 9))%nat by lia.
  unfold malloc. rewrite replicate_add.
  pose proof (fill_spaces_spec (S m) [] (replicate (1 + 9) None)) as Hfill.
  simpl length in Hfill. rewrite app_nil_l in Hfill. rewrite Hfill. clear Hfill.
  rewrite app_nil_l, Nat.add_0_l. cbn [mbind option_bind].
  rewrite decide_True by lia. cbn [Nat.pred].
  rewrite replicate_S_end, <- app_assoc.
  replace m with (length (replicate m (Some SPACE))) at 2 by apply length_replicate.
  cbn [app]. rewrite store_middle. cbn [mbind option_bind].
  change (replicate (1 + 9) (@None ascii))
    with (@None ascii :: None :: None :: replicate 7 None).
  pose proof (write_carets (replicate m SPACE ++ [CARET]) (replicate 7 None)) as Hw.
  rewrite length_app, length_replicate in Hw. cbn [length] in Hw.
  rewrite fmap_app, fmap_replicate, <- app_assoc in Hw.
  replace (m + 1)%nat with (S m) in Hw by lia.
  change (Some <$> [CARET]) with [Some CARET] in Hw. cbn [app] in Hw.
  rewrite Hw.
  - by rewrite <- app_assoc.
  - rewrite elem_of_app. intros [Hin|Hin]; [by apply NUL_not_in_spaces in Hin|].
    apply list_elem_of_singleton in Hin. done.
Qed.

Lemma caret_line_length (column : Z) :
  0 <= column → length (caret_line column) = Z.to_nat (column + 2).
Proof.
  intros Hc. unfold caret_line. destruct (decide (column = 0)) as [->|Hz]; [done|].
  rewrite length_app, length_replicate. simpl. lia.
Qed.

(** C5 (as amended).  For a column [c] the code can handle, the marker
    line is two carets when [c = 0]; when [c > 0] it is [c - 1] spaces
    followed by three carets, the middle one under column [c].  In both
    cases it is [c + 2] characters long, and it is the last line of the
    text that [registerParseError], in either overload, formats. *)
Theorem caret_marker_line (column : Z) :
  0 <= column <= INT_MAX - 10 →
  make_arrowpointer column = Some (caret_line column)
  ∧ (column = 0 → caret_line column = [CARET; CARET])
  ∧ (0 < column →
     caret_line column = replicate (Z.to_nat (column - 1)) SPACE ++ [CARET; CARET; CARET])
  ∧ length (caret_line column) = Z.to_nat (column + 2)
  ∧ ∀ errorCode data line p,
      errorCode ≠ TRI_ERROR_NO_ERROR →
      registerParseError errorCode (Some data) line column p =
        Returned tt
          (add_error errorCode
             (Some (snprintf 512
                      (parse_error_text data
                         (extractRegion (queryString (_query p)) line column)
                         line (column + 1) (queryString (_query p))
                         (caret_line column)))) p)
      ∧ ∀ format,
          registerParseError_format errorCode format data line column p =
            Returned tt
              (add_error errorCode
                 (Some (snprintf 512
                          (parse_error_text (snprintf 512 (expand_format format data))
                             (extractRegion (queryString (_query p)) line column)
                             line (column + 1) (queryString (_query p))
                             (caret_line column)))) p).
Proof.
  intros Hc. split; [by apply make_arrowpointer_eq|].
  split; [by intros ->|].
  split; [intros Hpos; unfold caret_line; by rewrite decide_False by lia|].
  split; [apply caret_line_length; lia|].
  intros errorCode data line p Hcode. unfold registerParseError_format.
  split; [|intros format];
    by rewrite registerParseError_eq, (bool_decide_eq_false_2 _ Hcode),
         make_arrowpointer_eq.
Qed.

Lemma parse_error_text_head (data region : cstring) (line column1 : Z)
    (query arrowpointer : cstring) :
  parse_error_text data region line column1 query arrowpointer =
    parse_error_head data region line column1
      ++ query ++ [NEWLINE] ++ arrowpointer ++ [NEWLINE].
Proof. unfold parse_error_text, parse_error_head. by rewrite <- !app_assoc. Qed.

(** C6 (as amended).  A call with a code other than "no error", a non-null
    message and a column the code can handle returns, having appended
    exactly one record to the error sink and changed nothing else.  The
    record's text is the first 511 characters of the combination of: the
    message, [ near '], the region, [' at position ], the line as given,
    [:], the column plus one, [:] and a newline, then the whole query text,
    a newline, the marker line and a newline.  The record holds the whole
    combination exactly when that is at most 511 characters long; of a
    longer one it holds the first 511 characters and loses the rest.  So
    the query text is whole in the record exactly when the combination up
    to the end of the query text is at most 511 characters long, and the
    marker line as well exactly when the whole combination is at most 512
    characters long; when the combination up to the end of the query text
    is 511 characters or longer, the record holds nothing of what follows
    the query text.  The no-error code and a null message trip the
    assertions. *)
Theorem registerParseError_diagnostic (errorCode : ErrorCode) (data : cstring)
    (line column : Z) (p : Parser) :
  errorCode ≠ TRI_ERROR_NO_ERROR →
  0 <= column <= INT_MAX - 10 →
  ∃ head text,
    head = data ++ lit " near '"
             ++ extractRegion (queryString (_query p)) line column
             ++ lit "' at position " ++ format_d line ++ lit ":"
             ++ format_d (column + 1) ++ lit ":" ++ [NEWLINE]
    ∧ text = head ++ queryString (_query p) ++ [NEWLINE]
               ++ caret_line column ++ [NEWLINE]
    ∧ registerParseError errorCode (Some data) line column p =
        Returned tt (add_error errorCode (Some (take 511 text)) p)
    ∧ errors (_query (add_error errorCode (Some (take 511 text)) p)) =
        errors (_query p) ++ [mkError errorCode (Some (take 511 text))]
    ∧ (take 511 text = text ↔ (length text ≤ 511)%nat)
    ∧ ((511 < length text)%nat →
       length (take 511 text) = 511%nat
       ∧ text = take 511 text ++ drop 511 text
       ∧ drop 511 text ≠ [])
    ∧ ((head ++ queryString (_query p)) `prefix_of` take 511 text
       ↔ (length head + length (queryString (_query p)) ≤ 511)%nat)
    ∧ ((head ++ queryString (_query p) ++ [NEWLINE] ++ caret_line column)
         `prefix_of` take 511 text
       ↔ (length text ≤ 512)%nat)
    ∧ ((511 ≤ length head + length (queryString (_query p)))%nat →
       take 511 text = take 511 (head ++ queryString (_query p)))
    ∧ registerParseError TRI_ERROR_NO_ERROR (Some data) line column p = AssertFailed
    ∧ registerParseError errorCode None line column p = AssertFailed.
Proof.
  intros Hcode Hc. do 2 eexists. split; [reflexivity|]. split; [reflexivity|].
  rewrite !registerParseError_eq, (bool_decide_eq_false_2 _ Hcode).
  rewrite make_arrowpointer_eq by done.
  rewrite parse_error_text_head. unfold parse_error_head, snprintf.
  change (512 - 1)%nat with 511%nat.
  set (head := data ++ lit " near '"
                 ++ extractRegion (queryString (_query p)) line column
                 ++ lit "' at position " ++ format_d line ++ lit ":"
                 ++ format_d (column + 1) ++ lit ":" ++ [NEWLINE]).
  set (query := queryString (_query p)).
  set (text := head ++ query ++ [NEWLINE] ++ caret_line column ++ [NEWLINE]).
  split; [done|]. split; [done|]. split_and!; try done.
  - split; [|apply take_ge].
    intros E. apply (f_equal length) in E. rewrite length_take in E. lia.
  - intros Hlong. split_and!.
    + rewrite length_take. lia.
    + by rewrite take_drop.
    + intros E. apply (f_equal length) in E. rewrite length_drop in E. simpl in E. lia.
  - split.
    + intros Hpre. apply prefix_length in Hpre.
      rewrite length_app, length_take in Hpre. lia.
    + intros Hfit. subst text. rewrite (app_assoc head query).
      rewrite take_app_ge by (rewrite length_app; lia). apply prefix_app_r. done.
  - split.
    + intros Hpre. apply prefix_length in Hpre.
      rewrite length_take in Hpre.
      assert (length (head ++ query ++ [NEWLINE] ++ caret_line column) ≤ 511)%nat
        as Hfit by lia.
      clear Hpre. subst text.
      rewrite !length_app in Hfit |- *. cbn [length] in Hfit |- *.
      rewrite ?length_app. cbn [length]. lia.
    + intros Hfit. subst text.
      replace (head ++ query ++ [NEWLINE] ++ caret_line column ++ [NEWLINE])
        with ((head ++ query ++ [NEWLINE] ++ caret_line column) ++ [NEWLINE])
        by (by rewrite <- !app_assoc).
      rewrite !length_app in Hfit. simpl in Hfit.
      rewrite take_app_ge by (rewrite !length_app; simpl; lia). apply prefix_app_r. done.
  - intros Hcut. subst text. rewrite (app_assoc head query).
    apply take_app_le. rewrite length_app. lia.
Qed.

(** ** The parse driver *)

Lemma perform_all_lexer (l : list Action) :
  ∀ p p', final (perform_all l p) = Some p' →
    _scanner p' = _scanner p ∧ lexerCalls p' = lexerCalls p.
Proof.
  induction l as [|a l IH]; intros p p'.
  - simpl. by intros [= <-].
  - rewrite perform_all_cons.
    destruct (perform a p) as [[] p1|e p1| |] eqn:Hp; try done.
    + intros Hf. destruct (perform_frame a p p1) as (Hs & Hl & _); [by rewrite Hp|].
      destruct (IH p1 p' Hf). split; congruence.
    + intros [= <-]. destruct (perform_frame a p p1) as (Hs & Hl & _); [by rewrite Hp|].
      done.
Qed.

(** The three ways out of [parse], and the two ways of not getting out. *)
Lemma parse_cases (g : GrammarRun) (p : Parser) :
  parse g p =
    match perform_all (actions g) (started p) with
    | Returned _ q =>
        if bool_decide (status g ≠ 0)
        then Thrown TRI_ERROR_QUERY_PARSE (with_scanner ScannerDestroyed CallLexDestroy q)
        else match scopes (_ast q) with
             | [_] =>
                 Returned
                   (assemble (with_scopes [] (with_scanner ScannerDestroyed CallLexDestroy q)))
                   (with_scopes [] (with_scanner ScannerDestroyed CallLexDestroy q))
             | _ => AssertFailed
             end
    | Thrown e q => Thrown e (with_scanner ScannerDestroyed CallLexDestroy q)
    | AssertFailed => AssertFailed
    | Undefined => Undefined
    end.
Proof.
  unfold parse, bind at 1 2 3. unfold Scopes_start, Aqllex_init, Aqlset_extra, modify, ret.
  fold (started p).
  unfold bind at 1, try_catch_rethrow, Aqlparse, bind at 1 2 3, ret.
  destruct (perform_all (actions g) (started p)) as [[] q|e q| |] eqn:Hrun; try done.
  - destruct (perform_all_lexer _ _ q ltac:(by rewrite Hrun)) as [Hlive _].
    destruct (bool_decide (status g ≠ 0)); unfold throw, Aqllex_destroy; rewrite Hlive.
    + done.
    + simpl. unfold bind. rewrite Scopes_endCurrent_eq. simpl.
      destruct (scopes (_ast q)) as [|x [|y s]]; try done.
      unfold Scopes_numActive, gets, TRI_ASSERT. simpl.
      by destruct (last (y :: s)).
  - destruct (perform_all_lexer _ _ q ltac:(by rewrite Hrun)) as [Hlive _].
    unfold Aqllex_destroy. by rewrite Hlive.
Qed.

Lemma perform_all_scopes (l : list Action) :
  ∀ p p',
    Forall (λ a, scope_hook a = false) l →
    final (perform_all l p) = Some p' →
    scopes (_ast p') = scopes (_ast p).
Proof.
  induction l as [|a l IH]; intros p p' Hl.
  - simpl. by intros [= <-].
  - apply Forall_cons in Hl as [Ha Hl].
    assert (∀ p1, final (perform a p) = Some p1 → scopes (_ast p1) = scopes (_ast p))
      as Hstep.
    { intros p1. destruct a; try done; simpl; unfold bind;
        rewrite ?popStack_eq, ?peekStack_eq, ?pushList_eq, ?pushArray_eq,
          ?configureWriteQuery_eq, ?registerParseError_eq;
        unfold pushStack, registerError, Query_registerError,
          Ast_createNode, modify, throw;
        intros Hf; by repeat case_match; simplify_eq/=. }
    rewrite perform_all_cons.
    destruct (perform a p) as [[] p1|e p1| |] eqn:Hp; try done.
    + intros Hf. rewrite (IH p1 p' Hl Hf). by apply Hstep.
    + intros [= <-]. by apply Hstep.
Qed.

Lemma Aqlparse_eq (g : GrammarRun) (p : Parser) :
  Aqlparse g p =
    match perform_all (actions g) p with
    | Returned _ q => Returned (status g) q
    | Thrown e q => Thrown e q
    | AssertFailed => AssertFailed
    | Undefined => Undefined
    end.
Proof. reflexivity. Qed.

(** C4 (as amended).  Every successful return of [parse] comes from a run
    the grammar accepted and leaves no scope active.  Once the grammar has
    accepted, [parse] closes the current scope and asserts that none is
    left: it returns when exactly one scope was active and stops on the
    assertion otherwise.  The value stack is not examined: it is returned
    as the grammar's hooks left it. *)
Theorem parse_success_scopes_closed (g : GrammarRun) (p : Parser) :
  (∀ r p',
     parse g p = Returned r p' →
     length (scopes (_ast p')) = 0%nat
     ∧ r = assemble p'
     ∧ ∃ q, Aqlparse g (started p) = Returned 0 q ∧ _stack p' = _stack q)
  ∧ (∀ q,
       Aqlparse g (started p) = Returned 0 q →
       if bool_decide (length (scopes (_ast q)) = 1%nat)
       then ∃ p', parse g p = Returned (assemble p') p'
                  ∧ scopes (_ast p') = [] ∧ _stack p' = _stack q
       else parse g p = AssertFailed).
Proof.
  split.
  - intros r p'. rewrite parse_cases, Aqlparse_eq.
    destruct (perform_all (actions g) (started p)) as [[] q|e q| |]; try done.
    case_bool_decide as Hs; [done|].
    destruct (scopes (_ast q)) as [|x [|y s]]; try done.
    intros [= <- <-]. split; [done|]. split; [done|].
    exists q. split; [|done]. f_equal.
    destruct (decide (status g = 0)); [done|]. by destruct Hs.
  - intros q. rewrite parse_cases, Aqlparse_eq.
    destruct (perform_all (actions g) (started p)) as [[] q'|e q'| |]; try done.
    intros [= Hst ->]. rewrite (bool_decide_eq_false_2 (status g ≠ 0)) by (intros Hn; by apply Hn).
    destruct (scopes (_ast q)) as [|x [|y s]]; simpl; try done.
    eexists. split; [reflexivity|done].
Qed.

(** C7.  Whenever [parse] returns or lets an exception escape, the calls
    made on the scanner during it are one [Aqllex_init] followed by one
    [Aqllex_destroy], and the handle is left destroyed.  This covers the
    three ways out: an exception out of the grammar run is rethrown after
    the release, a grammar failure raises the parse error after the
    release, and an accepted run is released before the scope is closed. *)
Theorem parse_releases_scanner_once (g : GrammarRun) (p : Parser) :
  (∀ p',
     final (parse g p) = Some p' →
     lexerCalls p' = lexerCalls p ++ [CallLexInit; CallLexDestroy]
     ∧ _scanner p' = ScannerDestroyed
     ∧ length (filter (λ c, c = CallLexDestroy) (drop (length (lexerCalls p)) (lexerCalls p')))
       = 1%nat)
  ∧ (∀ e q,
       Aqlparse g (started p) = Thrown e q →
       parse g p = Thrown e (with_scanner ScannerDestroyed CallLexDestroy q))
  ∧ (∀ rc q,
       Aqlparse g (started p) = Returned rc q →
       rc ≠ 0 →
       parse g p = Thrown TRI_ERROR_QUERY_PARSE
                     (with_scanner ScannerDestroyed CallLexDestroy q))
  ∧ (∀ q,
       Aqlparse g (started p) = Returned 0 q →
       length (scopes (_ast q)) = 1%nat →
       parse g p =
         Returned (assemble (with_scopes [] (with_scanner ScannerDestroyed CallLexDestroy q)))
                  (with_scopes [] (with_scanner ScannerDestroyed CallLexDestroy q))).
Proof.
  split; [|split; [|split]].
  - intros p'. rewrite parse_cases.
    destruct (perform_all (actions g) (started p)) as [[] q|e q| |] eqn:Hrun; try done.
    + destruct (perform_all_lexer _ _ q ltac:(by rewrite Hrun)) as [_ Hcalls].
      assert (lexerCalls (with_scanner ScannerDestroyed CallLexDestroy q)
              = lexerCalls p ++ [CallLexInit; CallLexDestroy]) as Hq.
      { simpl. rewrite Hcalls. simpl. by rewrite <- app_assoc. }
      intros Hf.
      assert (lexerCalls p' = lexerCalls p ++ [CallLexInit; CallLexDestroy]
              ∧ _scanner p' = ScannerDestroyed) as [Hc Hs].
      { repeat case_match; simplify_eq/=; done. }
      rewrite Hc, drop_app_length. done.
    + destruct (perform_all_lexer _ _ q ltac:(by rewrite Hrun)) as [_ Hcalls].
      intros [= <-]. simpl. rewrite Hcalls. simpl. rewrite <- app_assoc. simpl.
      by rewrite drop_app_length.
  - intros e q. rewrite parse_cases, Aqlparse_eq.
    destruct (perform_all (actions g) (started p)) as [[] q'|e' q'| |]; try done.
    by intros [= -> ->].
  - intros rc q. rewrite parse_cases, Aqlparse_eq.
    destruct (perform_all (actions g) (started p)) as [[] q'|e' q'| |]; try done.
    intros [= -> ->] Hrc. by rewrite bool_decide_eq_true_2.
  - intros q. rewrite parse_cases, Aqlparse_eq.
    destruct (perform_all (actions g) (started p)) as [[] q'|e' q'| |]; try done.
    intros [= Hst ->] Hlen. rewrite (bool_decide_eq_false_2 (status g ≠ 0)) by (intros Hn; by apply Hn).
    by destruct (scopes (_ast q)) as [|x [|y s]].
Qed.

(** C8.  When the grammar run returns a non-zero status, [parse] releases
    the scanner and lets the parse error escape: it does not return, so
    there is no result, and apart from the released scanner the parser is
    as the grammar left it; the scope opened at the start is not closed
    (with no scope hook in the run, MAIN is still the innermost scope). *)
Theorem parse_grammar_failure (g : GrammarRun) (p q : Parser) (rc : Z) :
  Aqlparse g (started p) = Returned rc q →
  rc ≠ 0 →
  parse g p = Thrown TRI_ERROR_QUERY_PARSE (with_scanner ScannerDestroyed CallLexDestroy q)
  ∧ (∀ r p', parse g p ≠ Returned r p')
  ∧ lexerCalls (with_scanner ScannerDestroyed CallLexDestroy q)
    = lexerCalls p ++ [CallLexInit; CallLexDestroy]
  ∧ _query (with_scanner ScannerDestroyed CallLexDestroy q) = _query q
  ∧ _ast (with_scanner ScannerDestroyed CallLexDestroy q) = _ast q
  ∧ _stack (with_scanner ScannerDestroyed CallLexDestroy q) = _stack q
  ∧ (Forall (λ a, scope_hook a = false) (actions g) →
     scopes (_ast q) = scopes (_ast p) ++ [AQL_SCOPE_MAIN]).
Proof.
  rewrite Aqlparse_eq. intros Hrun Hrc.
  assert (parse g p = Thrown TRI_ERROR_QUERY_PARSE
                        (with_scanner ScannerDestroyed CallLexDestroy q)) as Hparse.
  { rewrite parse_cases.
    destruct (perform_all (actions g) (started p)) as [[] q'|e' q'| |]; try done.
    injection Hrun as -> ->. by rewrite bool_decide_eq_true_2. }
  split; [done|]. split; [intros r p'; by rewrite Hparse|].
  destruct (perform_all (actions g) (started p)) as [[] q'|e' q'| |] eqn:Hp; try done.
  injection Hrun as Hst ->.
  destruct (perform_all_lexer _ _ q ltac:(by rewrite Hp)) as [_ Hcalls].
  split; [simpl; rewrite Hcalls; simpl; by rewrite <- app_assoc|].
  split; [done|]. split; [done|]. split; [done|].
  intros Hno. by rewrite (perform_all_scopes _ (started p) q Hno ltac:(by rewrite Hp)).
Qed.

End Properties.

(** * Further properties of the parser *)

Section ParserProperties.
Context `{!Collaborators}.

(** ** Depth of the value stack and of the scopes along a run *)

Lemma perform_depths (a : Action) (p q : Parser) :
  perform a p = Returned tt q →
  (length (_stack q) + (if is_pop a then 1 else 0)
   = length (_stack p) + (if is_push a then 1 else 0))%nat
  ∧ (length (scopes (_ast q)) + (if is_scope_end a then 1 else 0)
     = length (scopes (_ast p)) + (if is_scope_start a then 1 else 0))%nat.
Proof.
  destruct a; simpl; unfold bind;
    rewrite ?popStack_eq, ?peekStack_eq, ?pushList_eq, ?pushArray_eq,
      ?configureWriteQuery_eq, ?registerParseError_eq, ?Scopes_endCurrent_eq;
    unfold pushStack, registerError, Query_registerError, Scopes_start,
      Ast_createNode, modify, throw, ret;
    intros Hf.
  - simplify_eq/=. rewrite length_app. simpl. lia.
  - destruct (last (_stack p)) as [x|] eqn:Hl; simplify_eq/=.
    apply last_Some in Hl as [s' ->]. rewrite removelast_last, length_app. simpl. lia.
  - repeat case_match; simplify_eq/=. lia.
  - repeat case_match; simplify_eq/=. lia.
  - repeat case_match; simplify_eq/=. lia.
  - repeat case_match; simplify_eq/=; lia.
  - repeat case_match; simplify_eq/=. lia.
  - simplify_eq/=. lia.
  - simplify_eq/=. rewrite length_app. simpl. lia.
  - destruct (last (scopes (_ast p))) as [x|] eqn:Hl; simplify_eq/=.
    apply last_Some in Hl as [s' ->]. rewrite removelast_last, length_app. simpl. lia.
  - simplify_eq/=. lia.
  - done.
Qed.

Lemma perform_all_depths (l : list Action) :
  ∀ p q,
    perform_all l p = Returned tt q →
    (length (_stack q) + count_hooks is_pop l
     = length (_stack p) + count_hooks is_push l)%nat
    ∧ (length (scopes (_ast q)) + count_hooks is_scope_end l
       = length (scopes (_ast p)) + count_hooks is_scope_start l)%nat.
Proof.
  induction l as [|a l IH]; intros p q.
  - simpl. unfold ret. intros [= <-]. lia.
  - rewrite perform_all_cons.
    destruct (perform a p) as [[] p1|e p1| |] eqn:Hp; try done.
    intros Hrun. destruct (perform_depths a p p1 Hp) as [Hs Hc].
    destruct (IH p1 q Hrun) as [Hs' Hc']. simpl. lia.
Qed.

Lemma perform_all_app (l1 l2 : list Action) :
  ∀ p q,
    perform_all (l1 ++ l2) p = Returned tt q →
    ∃ p1, perform_all l1 p = Returned tt p1 ∧ perform_all l2 p1 = Returned tt q.
Proof.
  induction l1 as [|a l1 IH]; intros p q.
  - simpl. intros Hrun. by exists p.
  - rewrite <- app_comm_cons, !perform_all_cons.
    destruct (perform a p) as [[] p1|e p1| |]; try done. apply IH.
Qed.

(** X1.  Along a run of hooks that returns, the value stack grows by one
    for each [pushStack] and shrinks by one for each [popStack], and by
    nothing else; at no point of the run have there been more pops than the
    initial depth plus the pushes so far. *)
Theorem stack_depth_balance (l : list Action) (p q : Parser) :
  perform_all l p = Returned tt q →
  (length (_stack q) + count_hooks is_pop l
   = length (_stack p) + count_hooks is_push l)%nat
  ∧ ∀ l1 l2,
      l = l1 ++ l2 →
      (count_hooks is_pop l1 ≤ length (_stack p) + count_hooks is_push l1)%nat.
Proof.
  intros Hrun. split; [by apply perform_all_depths|].
  intros l1 l2 ->. apply perform_all_app in Hrun as (p1 & Hrun1 & _).
  apply perform_all_depths in Hrun1 as [Hs _]. lia.
Qed.

(** X2.  When the hooks of the grammar run all return and the grammar
    accepts, what [parse] does is decided by the number of scopes the
    hooks leave active, which is the number active when [parse] was called,
    plus one for MAIN, plus the scopes the hooks opened, minus those they
    closed.  [parse] returns exactly when that number is one, that is,
    when the hooks closed as many scopes as were active at the call plus
    those they opened; the scope [parse] then closes is the innermost one,
    whichever it is.  When the hooks left no scope, the call of
    [endCurrent] stops on its assertion; when they left two or more,
    [endCurrent] returns and the assertion that no scope is active stops
    [parse].  When [parse] returns, the depth of the value stack is the
    initial depth plus the pushes minus the pops, so a run with as many
    pops as pushes leaves an empty stack empty. *)
Theorem parse_returns_iff_balanced (g : GrammarRun) (p q : Parser) :
  perform_all (actions g) (started p) = Returned tt q →
  status g = 0 →
  (length (scopes (_ast q)) + count_hooks is_scope_end (actions g)
   = length (scopes (_ast p)) + 1 + count_hooks is_scope_start (actions g))%nat
  ∧ ((∃ r p', parse g p = Returned r p')
     ↔ (count_hooks is_scope_end (actions g)
        = length (scopes (_ast p)) + count_hooks is_scope_start (actions g))%nat)
  ∧ ((count_hooks is_scope_end (actions g)
      = length (scopes (_ast p)) + 1 + count_hooks is_scope_start (actions g))%nat →
     Scopes_endCurrent (with_scanner ScannerDestroyed CallLexDestroy q) = AssertFailed
     ∧ parse g p = AssertFailed)
  ∧ ((count_hooks is_scope_end (actions g)
      < length (scopes (_ast p)) + count_hooks is_scope_start (actions g))%nat →
     ∃ q',
       Scopes_endCurrent (with_scanner ScannerDestroyed CallLexDestroy q) = Returned tt q'
       ∧ Scopes_numActive q' = Returned (length (scopes (_ast q')) ) q'
       ∧ (0 < length (scopes (_ast q')))%nat
       ∧ TRI_ASSERT (bool_decide (length (scopes (_ast q')) = 0%nat)) q' = AssertFailed
       ∧ parse g p = AssertFailed)
  ∧ ∀ r p',
      parse g p = Returned r p' →
      (length (_stack p') + count_hooks is_pop (actions g)
       = length (_stack p) + count_hooks is_push (actions g))%nat
      ∧ (_stack p = [] →
         count_hooks is_pop (actions g) = count_hooks is_push (actions g) →
         _stack p' = []).
Proof.
  intros Hrun Hst.
  destruct (perform_all_depths _ _ _ Hrun) as [Hs Hc].
  simpl in Hs, Hc. rewrite length_app in Hc. simpl in Hc.
  split; [lia|].
  rewrite parse_cases, Hrun, (bool_decide_eq_false_2 (status g ≠ 0))
    by (intros Hn; by apply Hn).
  rewrite Scopes_endCurrent_eq. cbn [_ast with_scanner].
  destruct (scopes (_ast q)) as [|x [|y s]] eqn:Hq; simpl in Hc.
  - split; [split; [by intros (? & ? & ?)|lia]|].
    split; [done|]. split; [intros; lia|]. intros r p' Hr. discriminate Hr.
  - split; [split; [lia|by eauto]|].
    split; [intros; lia|]. split; [intros; lia|].
    intros r p' [= <- <-]. simpl. split; [lia|].
    intros Hp Heq. rewrite Hp in Hs. simpl in Hs.
    apply length_zero_iff_nil. lia.
  - split; [split; [by intros (? & ? & ?)|lia]|].
    split; [intros; lia|]. split; [|intros r p' Hr; discriminate Hr].
    intros _. destruct (proj2 (last_is_Some (x :: y :: s)) ltac:(done)) as [z ->].
    eexists. split; [done|].
    split; [done|]. cbn [_ast with_scopes set_ast scopes set_scopes].
    assert (0 < length (removelast (x :: y :: s)))%nat as Hpos by (simpl; lia).
    split; [done|]. split; [|done].
    unfold TRI_ASSERT. rewrite bool_decide_eq_false_2; [done|lia].
Qed.

(** X3.  On a newly constructed parser every read of the value stack
    ([popStack], [peekStack], [pushList], [pushArray]) stops on the
    assertion; after one [pushStack] the value can be read back; and a run
    of hooks that returns has, at every point, made no more pops than
    pushes. *)
Theorem new_parser_stack (query : Query) (ast : Ast) (l : list Action) (q : Parser) :
  perform_all l (Parser_new query ast) = Returned tt q →
  popStack (Parser_new query ast) = AssertFailed
  ∧ peekStack (Parser_new query ast) = AssertFailed
  ∧ (∀ node, pushList node (Parser_new query ast) = AssertFailed)
  ∧ (∀ name node, pushArray name node (Parser_new query ast) = AssertFailed)
  ∧ (∀ v, (pushStack v ;; peekStack) (Parser_new query ast)
          = Returned v (set_stack [v] (Parser_new query ast)))
  ∧ (length (_stack q) + count_hooks is_pop l = count_hooks is_push l)%nat
  ∧ ∀ l1 l2, l = l1 ++ l2 → (count_hooks is_pop l1 ≤ count_hooks is_push l1)%nat.
Proof.
  intros Hrun. split; [done|]. split; [done|].
  split; [intros node; by rewrite pushList_eq|].
  split; [intros name node; by rewrite pushArray_eq|].
  split; [done|].
  split; [by apply perform_all_depths in Hrun as [Hs _]|].
  intros l1 l2 ->. apply perform_all_app in Hrun as (p1 & Hrun1 & _).
  apply perform_all_depths in Hrun1 as [Hs _]. simpl in Hs. lia.
Qed.

(** ** Last in, first out *)

Lemma popStacks_eq (n : nat) :
  ∀ p,
    popStacks n p =
      if decide (n ≤ length (_stack p))%nat
      then Returned (rev (drop (length (_stack p) - n) (_stack p)))
                    (set_stack (take (length (_stack p) - n) (_stack p)) p)
      else AssertFailed.
Proof.
  induction n as [|n IH]; intros p.
  - cbn [popStacks]. case_decide; [|lia].
    rewrite Nat.sub_0_r, drop_all, firstn_all. by destruct p.
  - cbn [popStacks]. unfold bind. rewrite popStack_eq.
    destruct (last (_stack p)) as [x|] eqn:Hl.
    + apply last_Some in Hl as [s' Hs]. rewrite Hs, removelast_last, IH.
      cbn [_stack set_stack]. rewrite length_app. cbn [length].
      repeat case_decide; try lia; [|done].
      unfold ret. f_equal.
      * replace (length s' + 1 - S n)%nat with (length s' - n)%nat by lia.
        rewrite drop_app_le by lia. by rewrite rev_app_distr.
      * replace (length s' + 1 - S n)%nat with (length s' - n)%nat by lia.
        rewrite take_app_le by lia. by destruct p.
    + apply last_nil_iff in Hl. rewrite Hl. cbn [length].
      case_decide; [lia|done].
Qed.

Lemma pushStacks_eq (values : list addr) :
  ∀ p, pushStacks values p = Returned tt (set_stack (_stack p ++ values) p).
Proof.
  induction values as [|v values IH]; intros p; simpl.
  - rewrite app_nil_r. by destruct p.
  - unfold bind, pushStack, modify. rewrite IH. simpl. by rewrite <- app_assoc.
Qed.

(** X4.  The value stack is last in, first out: after pushing a sequence
    of values, as many pops return them in reverse order and leave the
    parser as it was before the pushes.  In general [n] pops return the
    last [n] entries, most recent first, and remove them; with fewer than
    [n] entries on the stack the assertion stops the pops. *)
Theorem stack_lifo (values : list addr) (n : nat) (p : Parser) :
  (pushStacks values ;; popStacks (length values)) p = Returned (rev values) p
  ∧ popStacks n p =
      if decide (n ≤ length (_stack p))%nat
      then Returned (rev (drop (length (_stack p) - n) (_stack p)))
                    (set_stack (take (length (_stack p) - n) (_stack p)) p)
      else AssertFailed.
Proof.
  split; [|apply popStacks_eq].
  unfold bind. rewrite pushStacks_eq, popStacks_eq. cbn [_stack set_stack].
  rewrite length_app. case_decide; [|lia].
  replace (length (_stack p) + length values - length values)%nat
    with (length (_stack p)) by lia.
  rewrite drop_app_length, take_app_length. by destruct p.
Qed.

(** ** The error sink *)

Lemma perform_errors (a : Action) (p p' : Parser) :
  final (perform a p) = Some p' →
  ∃ new,
    errors (_query p') = errors (_query p) ++ new
    ∧ (length new ≤ if is_registering a then 1 else 0)%nat.
Proof.
  destruct a; simpl; unfold bind;
    rewrite ?popStack_eq, ?peekStack_eq, ?pushList_eq, ?pushArray_eq,
      ?configureWriteQuery_eq, ?registerParseError_eq, ?Scopes_endCurrent_eq;
    unfold pushStack, registerError, Query_registerError, Scopes_start,
      Ast_createNode, modify, throw, ret;
    intros Hf; repeat case_match; simplify_eq/=;
    first [ by (exists []; rewrite app_nil_r; split; [done|simpl; lia])
          | by (eexists [_]; split; [done|simpl; lia]) ].
Qed.

Lemma perform_all_errors (l : list Action) :
  ∀ p p',
    final (perform_all l p) = Some p' →
    ∃ new,
      errors (_query p') = errors (_query p) ++ new
      ∧ (length new ≤ count_hooks is_registering l)%nat.
Proof.
  induction l as [|a l IH]; intros p p'.
  - simpl. intros [= <-]. exists []. by rewrite app_nil_r.
  - rewrite perform_all_cons.
    destruct (perform a p) as [[] p1|e p1| |] eqn:Hp; try done.
    + intros Hf.
      destruct (perform_errors a p p1) as (new1 & E1 & L1); [by rewrite Hp|].
      destruct (IH p1 p' Hf) as (new2 & E2 & L2).
      exists (new1 ++ new2). rewrite E2, E1, <- app_assoc, length_app.
      split; [done|]. simpl. lia.
    + intros [= <-].
      destruct (perform_errors a p p1) as (new1 & E1 & L1); [by rewrite Hp|].
      exists new1. split; [done|]. simpl. lia.
Qed.

Lemma parse_exit (g : GrammarRun) (p p' : Parser) :
  final (parse g p) = Some p' →
  ∃ q,
    final (perform_all (actions g) (started p)) = Some q
    ∧ _query p' = _query q
    ∧ _stack p' = _stack q
    ∧ nodes (_ast p') = nodes (_ast q)
    ∧ writeCollection (_ast p') = writeCollection (_ast q)
    ∧ bindParameters (_ast p') = bindParameters (_ast q).
Proof.
  rewrite parse_cases.
  destruct (perform_all (actions g) (started p)) as [[] q|e q| |]; try done.
  - intros Hf. exists q. split; [done|]. by repeat case_match; simplify_eq/=.
  - intros [= <-]. by exists q.
Qed.

(** X5.  The functions of the parser reach the error sink of the query
    only by calling [Query::registerError], each hook at most once per
    call, and [parse] not at all.  With [Query::registerError] appending
    one record per call, the error sink after a run of hooks, or after
    [parse] has returned or thrown, is the error sink before followed by
    at most one new record for each [configureWriteQuery],
    [registerParseError] and [registerError] hook of the run.  So no record
    is removed or rewritten, and the earliest error, once there, stays the
    earliest. *)
Theorem errors_append_only (l : list Action) (g : GrammarRun) (p p' : Parser) :
  (final (perform_all l p) = Some p' →
   ∃ new,
     errors (_query p') = errors (_query p) ++ new
     ∧ (length new ≤ count_hooks is_registering l)%nat
     ∧ ∀ e, head (errors (_query p)) = Some e → head (errors (_query p')) = Some e)
  ∧ (final (parse g p) = Some p' →
     ∃ new,
       errors (_query p') = errors (_query p) ++ new
       ∧ (length new ≤ count_hooks is_registering (actions g))%nat
       ∧ ∀ e, head (errors (_query p)) = Some e → head (errors (_query p')) = Some e).
Proof.
  assert (∀ (l1 new : list ErrorRecord) e,
            head l1 = Some e → head (l1 ++ new) = Some e) as Hhead.
  { intros l1 new e. by destruct l1. }
  split.
  - intros Hf. destruct (perform_all_errors l p p' Hf) as (new & E & L).
    exists new. rewrite E. eauto.
  - intros Hf. destruct (parse_exit g p p' Hf) as (q & Hq & Hquery & _).
    destruct (perform_all_errors _ (started p) q Hq) as (new & E & L).
    exists new. rewrite Hquery, E. eauto.
Qed.

(** X6.  [parse] itself touches only the scopes and the scanner: on every
    way out, the query context (text, classification, error sink), the
    value stack, the nodes, the write target and the bind parameters are
    what the hooks of the grammar run left.  In particular [parse]
    registers no error of its own: when the grammar fails without a hook
    having registered one, the exception is the only sign of the
    failure. *)
Theorem parse_footprint (g : GrammarRun) (p p' : Parser) :
  final (parse g p) = Some p' →
  (∃ q,
     final (perform_all (actions g) (started p)) = Some q
     ∧ _query p' = _query q
     ∧ _stack p' = _stack q
     ∧ nodes (_ast p') = nodes (_ast q)
     ∧ writeCollection (_ast p') = writeCollection (_ast q)
     ∧ bindParameters (_ast p') = bindParameters (_ast q))
  ∧ (actions g = [] →
     _query p' = _query p ∧ _stack p' = _stack p ∧ nodes (_ast p') = nodes (_ast p)
     ∧ (status g ≠ 0 → ∃ q', parse g p = Thrown TRI_ERROR_QUERY_PARSE q'
                             ∧ errors (_query q') = errors (_query p))).
Proof.
  intros Hf. split; [by apply parse_exit|].
  intros Hnil. destruct (parse_exit g p p' Hf) as (q & Hq & Hquery & Hstack & Hnodes & _).
  rewrite Hnil in Hq. simpl in Hq. injection Hq as <-.
  split; [done|]. split; [done|]. split; [done|].
  intros Hst. rewrite parse_cases, Hnil. simpl.
  rewrite bool_decide_eq_true_2 by done. by eexists.
Qed.

(** ** What the return value of the write-query validator tells *)

(** X7.  What the outcome of [configureWriteQuery] tells.  The call stops
    on the assertion exactly when the kind is READ.  It returns [false]
    exactly when the kind is a write kind and the active scope is a
    subquery or the query is already classified as a write query; the
    options pointer is not looked at on that path, and the call has added
    exactly one error and left the classification and the write target
    alone.  It returns [true] only when the kind is a write kind, the
    active scope is not a subquery and the query is still classified READ,
    and it does so whenever, in addition, the options pointer is null or
    points to a node of the AST; the classification is then the kind, the
    write target the collection given, and at most one error was added. *)
Theorem configureWriteQuery_outcomes (t : QueryType) (c o : addr) (p : Parser) :
  (configureWriteQuery t c o p = AssertFailed ↔ t = AQL_QUERY_READ)
  ∧ ((∃ p', configureWriteQuery t c o p = Returned false p')
     ↔ t ≠ AQL_QUERY_READ
       ∧ (last (scopes (_ast p)) = Some AQL_SCOPE_SUBQUERY
          ∨ queryType (_query p) ≠ AQL_QUERY_READ))
  ∧ ((∃ p', configureWriteQuery t c o p = Returned true p') →
     t ≠ AQL_QUERY_READ
     ∧ last (scopes (_ast p)) ≠ Some AQL_SCOPE_SUBQUERY
     ∧ queryType (_query p) = AQL_QUERY_READ)
  ∧ (t ≠ AQL_QUERY_READ →
     last (scopes (_ast p)) ≠ Some AQL_SCOPE_SUBQUERY →
     queryType (_query p) = AQL_QUERY_READ →
     o = nullptr ∨ is_Some (nodes (_ast p) !! o) →
     ∃ p', configureWriteQuery t c o p = Returned true p')
  ∧ (∀ p',
       configureWriteQuery t c o p = Returned true p' →
       queryType (_query p') = t
       ∧ writeCollection (_ast p') = c
       ∧ (length (errors (_query p')) ≤ S (length (errors (_query p))))%nat)
  ∧ (∀ p',
       configureWriteQuery t c o p = Returned false p' →
       queryType (_query p') = queryType (_query p)
       ∧ writeCollection (_ast p') = writeCollection (_ast p)
       ∧ length (errors (_query p')) = S (length (errors (_query p)))).
Proof.
  rewrite configureWriteQuery_eq.
  destruct (decide (t = AQL_QUERY_READ)) as [Ht|Ht];
    [rewrite (bool_decide_eq_true_2 _ Ht)|rewrite (bool_decide_eq_false_2 _ Ht)].
  { split_and!; try done.
    - split; [by intros [? ?]|by intros [? _]].
    - by intros [? ?]. }
  destruct (decide (last (scopes (_ast p)) = Some AQL_SCOPE_SUBQUERY)) as [Hs|Hs];
    [rewrite (bool_decide_eq_true_2 _ Hs)|rewrite (bool_decide_eq_false_2 _ Hs)].
  { split_and!; try done.
    - split; [intros _; by split; [|left]|intros _; by eexists].
    - by intros [? ?].
    - intros p' [= <-]. simpl. rewrite length_app. simpl. split_and!; auto; lia. }
  destruct (decide (queryType (_query p) = AQL_QUERY_READ)) as [Hq|Hq];
    [rewrite (bool_decide_eq_true_2 _ Hq)|rewrite (bool_decide_eq_false_2 _ Hq)].
  - split_and!; try done.
    + split; [by intros [? ?]|by intros (_ & [?|?])].
    + intros _ _ _ _. by eexists.
    + intros p' [= <-]. split_and!.
      * by repeat case_match.
      * by repeat case_match.
      * repeat case_match; simpl; rewrite ?length_app; simpl; lia.
  - split_and!; try done.
    + split; [intros _; by split; [|right]|intros _; by eexists].
    + by intros [? ?].
    + intros p' [= <-]. simpl. rewrite length_app. simpl. split_and!; auto; lia.
Qed.

(** ** The diagnostic and its marker *)

(** X8.  Whatever the message, the query text and the position, the text
    that [registerParseError] registers is at most 511 characters long, in
    either overload; a call that returns has registered exactly one record,
    under the code it was given, and changed nothing else. *)
Theorem parse_error_text_bounded (errorCode : ErrorCode) (line column : Z)
    (p p' : Parser) :
  (∀ data,
     registerParseError errorCode data line column p = Returned tt p' →
     ∃ text,
       p' = add_error errorCode (Some text) p
       ∧ errors (_query p') = errors (_query p) ++ [mkError errorCode (Some text)]
       ∧ (length text ≤ 511)%nat)
  ∧ (∀ format data,
       registerParseError_format errorCode format data line column p = Returned tt p' →
       ∃ text,
         p' = add_error errorCode (Some text) p
         ∧ errors (_query p') = errors (_query p) ++ [mkError errorCode (Some text)]
         ∧ (length text ≤ 511)%nat).
Proof.
  assert (∀ data,
            registerParseError errorCode data line column p = Returned tt p' →
            ∃ text,
              p' = add_error errorCode (Some text) p
              ∧ errors (_query p') = errors (_query p) ++ [mkError errorCode (Some text)]
              ∧ (length text ≤ 511)%nat) as Hmain.
  { intros data. rewrite registerParseError_eq.
    repeat case_match; try done. intros [= <-].
    eexists. split; [reflexivity|]. split; [done|].
    unfold snprintf. rewrite length_take. lia. }
  split; [done|]. intros format data. apply Hmain.
Qed.

Lemma caret_line_lookup (column : Z) :
  0 <= column →
  caret_line column !! Z.to_nat column = Some CARET
  ∧ caret_line column !! Z.to_nat (column + 1) = Some CARET
  ∧ (∀ i, (S i < Z.to_nat column)%nat → caret_line column !! i = Some SPACE)
  ∧ ∀ i c, caret_line column !! i = Some c → c = SPACE ∨ c = CARET.
Proof.
  intros Hc. unfold caret_line. destruct (decide (column = 0)) as [->|Hz].
  - split; [done|]. split; [done|]. split; [intros i Hi; simpl in Hi; lia|].
    intros [|[|i]] c; simpl; intros [= <-]; auto.
  - set (m := Z.to_nat (column - 1)).
    replace (Z.to_nat column) with (m + 1)%nat by lia.
    replace (Z.to_nat (column + 1)) with (m + 2)%nat by lia.
    split; [|split; [|split]].
    + rewrite lookup_app_r by (rewrite length_replicate; lia).
      rewrite length_replicate. by replace (m + 1 - m)%nat with 1%nat by lia.
    + rewrite lookup_app_r by (rewrite length_replicate; lia).
      rewrite length_replicate. by replace (m + 2 - m)%nat with 2%nat by lia.
    + intros i Hi. rewrite lookup_app_l by (rewrite length_replicate; lia).
      apply lookup_replicate_2. lia.
    + intros i c Hl. apply lookup_app_Some in Hl as [Hl|[_ Hl]].
      * apply lookup_replicate in Hl as [-> _]. by left.
      * right. destruct (i - length (replicate m SPACE))%nat as [|[|[|k]]];
          simpl in Hl; by simplify_eq.
Qed.

(** X9.  For every column the code can handle, the marker line has a caret
    exactly under that column (counting from 0) and another one right
    after it, nothing but spaces before the column preceding it, and no
    character other than spaces and carets. *)
Theorem caret_under_column (column : Z) :
  0 <= column <= INT_MAX - 10 →
  ∃ arrowpointer,
    make_arrowpointer column = Some arrowpointer
    ∧ arrowpointer !! Z.to_nat column = Some CARET
    ∧ arrowpointer !! Z.to_nat (column + 1) = Some CARET
    ∧ (∀ i, (S i < Z.to_nat column)%nat → arrowpointer !! i = Some SPACE)
    ∧ ∀ i c, arrowpointer !! i = Some c → c = SPACE ∨ c = CARET.
Proof.
  intros Hc. exists (caret_line column).
  split; [by apply make_arrowpointer_eq|]. apply caret_line_lookup. lia.
Qed.

(** ** Nodes created while a composite is filled *)

(** X10.  [pushList] returns only when the top of the stack points to a
    list node, and creates no node; [pushArray] returns only when it points
    to an array node, and creates exactly one node, at an address that was
    free and is not null.  Neither touches the query context, the scopes,
    the write target, the scanner or the stack. *)
Theorem pushList_pushArray_nodes (p p' : Parser) (name : cstring) (node : addr) :
  (pushList node p = Returned tt p' →
   (∃ top n, last (_stack p) = Some top ∧ nodes (_ast p) !! top = Some n
             ∧ type n = NODE_TYPE_LIST)
   ∧ dom (nodes (_ast p')) = dom (nodes (_ast p))
   ∧ _query p' = _query p ∧ _stack p' = _stack p ∧ _scanner p' = _scanner p
   ∧ scopes (_ast p') = scopes (_ast p)
   ∧ writeCollection (_ast p') = writeCollection (_ast p))
  ∧ (pushArray name node p = Returned tt p' →
     (∃ top n, last (_stack p) = Some top ∧ nodes (_ast p) !! top = Some n
               ∧ type n = NODE_TYPE_ARRAY)
     ∧ dom (nodes (_ast p')) = {[new_element p]} ∪ dom (nodes (_ast p))
     ∧ (new_element p ∉ dom (nodes (_ast p)))
     ∧ new_element p ≠ nullptr
     ∧ size (nodes (_ast p')) = S (size (nodes (_ast p)))
     ∧ _query p' = _query p ∧ _stack p' = _stack p ∧ _scanner p' = _scanner p
     ∧ scopes (_ast p') = scopes (_ast p)
     ∧ writeCollection (_ast p') = writeCollection (_ast p)).
Proof.
  split.
  - rewrite pushList_eq.
    destruct (last (_stack p)) as [top|] eqn:Hs; [|done].
    destruct (nodes (_ast p) !! top) as [n|] eqn:Hn; [|done].
    case_bool_decide as Ht; [|done]. intros [= <-].
    split; [by eauto|]. split; [|done]. simpl.
    apply dom_insert_lookup_L. by eauto.
  - rewrite pushArray_eq.
    destruct (last (_stack p)) as [top|] eqn:Hs; [|done].
    destruct (nodes (_ast p) !! top) as [n|] eqn:Hn; [|done].
    case_bool_decide as Ht; [|done]. intros [= <-].
    destruct (new_element_fresh p) as [Hnull Hfresh].
    split; [by eauto|]. simpl.
    assert (new_element p ≠ top) as Hne by (intros E; rewrite E in Hfresh; congruence).
    split_and!; try done.
    + rewrite dom_insert_lookup_L by (rewrite lookup_insert_ne by done; eauto).
      apply dom_insert_L.
    + by apply not_elem_of_dom.
    + rewrite map_size_insert_Some by (rewrite lookup_insert_ne by done; eauto).
      by rewrite map_size_insert_None.
Qed.

End ParserProperties.

(** * Properties of the key comparator *)

(** ** Dumps *)

Lemma byte_digits (b : Byte.byte) :
  byte_of_digits (reverse (format_lu (Byte.to_N b))) = Some b
  ∧ Forall (λ c, c ≠ SPACE ∧ c ≠ NEWLINE) (format_lu (Byte.to_N b)).
Proof.
  split.
  - destruct b; vm_compute; reflexivity.
  - apply Forall_forall. intros c Hc. apply (bool_decide_unpack _).
    revert c Hc. apply Forall_forall.
    destruct b; vm_compute; repeat constructor.
Qed.

Lemma undump_number (digits : cstring) :
  ∀ (seen rest : cstring),
    Forall (λ c, c ≠ SPACE ∧ c ≠ NEWLINE) digits →
    undump seen (digits ++ SPACE :: rest) =
      (b ← byte_of_digits (reverse digits ++ seen); cons b <$> undump [] rest).
Proof.
  induction digits as [|c digits IH]; intros seen rest Hd.
  - done.
  - apply Forall_cons in Hd as [[Hs Hn] Hd]. simpl.
    rewrite decide_False, decide_False by done.
    rewrite IH by done. by rewrite reverse_cons, <- app_assoc.
Qed.

Lemma undump_dumped (data : bytes) :
  undump [] (dumped_bytes data ++ [NEWLINE]) = Some data.
Proof.
  induction data as [|b data IH]; [done|].
  unfold dumped_bytes in *. rewrite bind_cons, <- !app_assoc.
  destruct (byte_digits b) as [Hb Hd].
  change (lit " " ++ (data ≫= λ c, format_lu (Byte.to_N c) ++ lit " ") ++ [NEWLINE])
    with (SPACE :: ((data ≫= λ c, format_lu (Byte.to_N c) ++ lit " ") ++ [NEWLINE])).
  rewrite undump_number by done. rewrite app_nil_r, Hb. cbn [mbind option_bind].
  by rewrite IH.
Qed.

Lemma DumpData_loop_eq (data : bytes) (n : nat) :
  ∀ i out,
    (i + n ≤ length data)%nat →
    DumpData_loop data i n out = Some (out ++ dumped_bytes (take n (drop i data))).
Proof.
  induction n as [|n IH]; intros i out Hn.
  - simpl. by rewrite app_nil_r.
  - simpl. destruct (data !! i) as [c|] eqn:Hc;
      [|apply lookup_ge_None in Hc; lia].
    simpl. rewrite IH by lia. f_equal.
    rewrite (drop_S data c i Hc). cbn [take].
    unfold dumped_bytes. rewrite bind_cons. by rewrite <- !app_assoc.
Qed.

Lemma DumpData_eq (data : bytes) (out : cstring) :
  DumpData data (length data) out = Some (out ++ dumped_bytes data ++ [NEWLINE]).
Proof.
  unfold DumpData. rewrite DumpData_loop_eq by (simpl; lia).
  simpl. rewrite drop_0, firstn_all. by rewrite <- app_assoc.
Qed.

(** X11.  [Dump] writes the label, the size of the slice, and one line
    from which the bytes can be read back: each byte in decimal followed by
    a space, then a newline.  So two slices with the same dump are the same
    slice, and [DumpData] asked for more bytes than there are reads past
    the end of the data. *)
Theorem Dump_reads_back (s : bytes) (out : cstring) :
  (∃ line,
     Dump s out = Some (out ++ lit "SLICE: size: " ++ format_lu (N.of_nat (length s))
                            ++ lit ", data: " ++ line)
     ∧ Dump_string s out = Dump s out
     ∧ undump [] line = Some s)
  ∧ (∀ s', DumpData s (length s) out = DumpData s' (length s') out → s = s')
  ∧ (∀ n, (length s < n)%nat → DumpData s n out = None).
Proof.
  split; [|split].
  - exists (dumped_bytes s ++ [NEWLINE]). unfold Dump. rewrite DumpData_eq.
    split; [by rewrite <- !app_assoc|].
    split; [unfold Dump_string; by rewrite DumpData_eq|]. apply undump_dumped.
  - intros s'. rewrite !DumpData_eq. intros [= Heq%app_inv_head].
    pose proof (undump_dumped s) as Hs. rewrite Heq, undump_dumped in Hs. congruence.
  - intros n Hn. unfold DumpData.
    assert (∀ k i o, (i ≤ length s)%nat → (length s < i + k)%nat →
              DumpData_loop s i k o = None) as Hoob.
    { induction k as [|k IH]; intros i o Hi Hk; simpl.
      - lia.
      - destruct (s !! i) as [c|] eqn:Hc; [|done]. simpl.
        apply lookup_lt_Some in Hc. apply IH; lia. }
    by rewrite Hoob by (simpl; lia).
Qed.

(** ** Comparing keys *)

Lemma byte_to_Z_inj (x y : Byte.byte) :
  Z.of_N (Byte.to_N x) - Z.of_N (Byte.to_N y) = 0 → x = y.
Proof.
  intros Hd. assert (Byte.to_N x = Byte.to_N y) as Hn by lia.
  pose proof (Byte.of_to_N x) as Hx. rewrite Hn, Byte.of_to_N in Hx. congruence.
Qed.

Lemma memcmp_spec (n : nat) :
  ∀ a b : bytes,
    (n ≤ length a)%nat → (n ≤ length b)%nat →
    (memcmp a b n = Some 0 ∧ memcmp b a n = Some 0 ∧ take n a = take n b)
    ∨ ∃ pre x y a' b',
        take n a = pre ++ x :: a' ∧ take n b = pre ++ y :: b' ∧ x ≠ y
        ∧ memcmp a b n = Some (Z.of_N (Byte.to_N x) - Z.of_N (Byte.to_N y))
        ∧ memcmp b a n = Some (Z.of_N (Byte.to_N y) - Z.of_N (Byte.to_N x)).
Proof.
  induction n as [|n IH]; intros a b Ha Hb.
  - by left.
  - destruct a as [|x a]; [simpl in Ha; lia|].
    destruct b as [|y b]; [simpl in Hb; lia|].
    simpl in Ha, Hb. simpl.
    destruct (decide (x = y)) as [->|Hxy].
    + rewrite decide_True by done.
      destruct (IH a b) as [(H1 & H2 & H3)|(pre & x' & y' & a' & b' & H1 & H2 & H3 & H4 & H5)];
        [lia|lia| |].
      * left. rewrite H3. by split_and!.
      * right. exists (y :: pre), x', y', a', b'. by rewrite H1, H2.
    + rewrite (decide_False (P := y = x)) by done.
      right. by exists [], x, y, (take n a), (take n b).
Qed.

Section ComparatorProperties.
Context `{!VelocyPack}.

Lemma Compare_loop_lexicographic (lSlice rSlice : bytes) (lLength rLength : nat) (n : nat) :
  ∀ i,
    (i + n)%nat = (if decide (lLength < rLength)%nat then lLength else rLength) →
    after_loop lLength rLength (Compare_loop lSlice rSlice lLength rLength i n)
    = lexicographic (λ a b, VelocyPackHelper_compare a b true)
        (VPack_at lSlice <$> seq i (lLength - i))
        (VPack_at rSlice <$> seq i (rLength - i)).
Proof.
  induction n as [|n IH]; intros i Hi.
  - simpl. rewrite Nat.add_0_r in Hi.
    destruct (decide (lLength < rLength)%nat) as [Hlt|Hge].
    + subst i. rewrite Nat.sub_diag. simpl.
      destruct (rLength - lLength)%nat as [|k] eqn:Hk; [lia|].
      simpl. by rewrite decide_True by lia.
    + subst i. rewrite Nat.sub_diag. simpl.
      destruct (lLength - rLength)%nat as [|k] eqn:Hk.
      * assert (lLength = rLength) as -> by lia. simpl. by rewrite decide_False by auto.
      * simpl. by rewrite decide_True by lia.
  - assert (i < lLength ∧ i < rLength)%nat as [Hl Hr]
      by (destruct (decide (lLength < rLength)%nat); lia).
    replace (lLength - i)%nat with (S (lLength - S i)) by lia.
    replace (rLength - i)%nat with (S (rLength - S i)) by lia.
    cbn [seq fmap list_fmap lexicographic Compare_loop].
    rewrite (decide_True (P := (i < lLength)%nat)) by done.
    rewrite (decide_True (P := (i < rLength)%nat)) by done.
    destruct (decide (VelocyPackHelper_compare (VPack_at lSlice i) (VPack_at rSlice i) true ≠ 0));
      [done|].
    apply IH. lia.
Qed.

Lemma Compare_eq (lhs rhs : bytes) (out : cstring) :
  (8 < length lhs)%nat → (8 < length rhs)%nat →
  take 8 lhs = take 8 rhs →
  ∃ out',
    Compare_output lhs rhs out = Some out'
    ∧ Compare lhs rhs out =
        if isArray (extractKeySlice lhs) && isArray (extractKeySlice rhs)
        then CompareReturned
               (lexicographic (λ a b, VelocyPackHelper_compare a b true)
                  (VPack_members (extractKeySlice lhs))
                  (VPack_members (extractKeySlice rhs))) out'
        else CompareAssertFailed out'.
Proof.
  intros Hl Hr Hid. unfold Compare, Compare_output.
  rewrite !bool_decide_eq_true_2 by done. cbn [negb].
  destruct (memcmp_spec 8 lhs rhs) as [(Hm & _ & _)|(pre & x & y & a' & b' & H1 & H2 & Hxy & _)];
    [lia|lia| |].
  2:{ rewrite Hid, H2 in H1. apply app_inv_head in H1. congruence. }
  unfold sizeof_TRI_idx_iid_t. rewrite Hm. rewrite decide_False by auto.
  unfold Dump. rewrite !DumpData_eq. cbn [mbind option_bind].
  rewrite DumpData_eq. eexists. split; [by rewrite <- !app_assoc|].
  rewrite <- !app_assoc.
  destruct (isArray (extractKeySlice lhs)); cbn [negb andb]; [|done].
  destruct (isArray (extractKeySlice rhs)); cbn [negb]; [|done].
  pose proof (Compare_loop_lexicographic (extractKeySlice lhs) (extractKeySlice rhs)
                (VPack_length (extractKeySlice lhs)) (VPack_length (extractKeySlice rhs))
                (if decide (VPack_length (extractKeySlice lhs)
                            < VPack_length (extractKeySlice rhs))%nat
                 then VPack_length (extractKeySlice lhs)
                 else VPack_length (extractKeySlice rhs)) 0%nat (Nat.add_0_l _)) as Hloop.
  rewrite !Nat.sub_0_r in Hloop. unfold VPack_members. rewrite <- Hloop.
  unfold after_loop. cbv zeta.
  match goal with
  | |- context [Compare_loop ?a ?b ?c ?d ?e ?f] => destruct (Compare_loop a b c d e f)
  end; [done|].
  by repeat case_decide.
Qed.

Lemma lexicographic_refl (cmp : bytes → bytes → Z) (l : list bytes) :
  (∀ x, x ∈ l → cmp x x = 0) → lexicographic cmp l l = 0.
Proof.
  induction l as [|x l IH]; intros Hl; [done|]. simpl.
  rewrite decide_False by (rewrite Hl by left; auto).
  apply IH. intros y Hy. apply Hl. by right.
Qed.

Lemma lexicographic_antisym (cmp : bytes → bytes → Z) :
  (∀ a b, Z.sgn (cmp a b) = - Z.sgn (cmp b a)) →
  ∀ l r, Z.sgn (lexicographic cmp l r) = - Z.sgn (lexicographic cmp r l).
Proof.
  intros Hcmp. induction l as [|x l IH]; intros [|y r]; simpl; try done.
  pose proof (Hcmp x y) as Hxy.
  destruct (decide (cmp x y ≠ 0)) as [Hn|Hz].
  - rewrite decide_True by lia. done.
  - rewrite decide_False by lia. apply IH.
Qed.

(** X12.  [Compare] asks of both keys to be longer than the eight bytes
    of the index id, and stops on the assertion, having written nothing,
    when one is not.  When the index ids differ, the order of the ids
    decides alone: the result has the sign of the difference between the
    first bytes that differ, the rest of the keys is not looked at,
    nothing is written, and the comparison the other way round has the
    opposite sign. *)
Theorem Compare_index_id_first (lhs rhs : bytes) (out : cstring) :
  ((length lhs ≤ 8)%nat ∨ (length rhs ≤ 8)%nat →
   Compare lhs rhs out = CompareAssertFailed out)
  ∧ ((8 < length lhs)%nat → (8 < length rhs)%nat →
     take 8 lhs ≠ take 8 rhs →
     ∃ pre x y l' r' res res',
       take 8 lhs = pre ++ x :: l' ∧ take 8 rhs = pre ++ y :: r' ∧ x ≠ y
       ∧ Compare lhs rhs out = CompareReturned res out
       ∧ Compare rhs lhs out = CompareReturned res' out
       ∧ (res < 0 ↔ (Byte.to_N x < Byte.to_N y)%N)
       ∧ (0 < res ↔ (Byte.to_N y < Byte.to_N x)%N)
       ∧ res ≠ 0
       ∧ Z.sgn res' = - Z.sgn res).
Proof.
  split.
  - intros Hshort. unfold Compare.
    destruct (decide (8 < length lhs)%nat) as [Hl|Hl].
    + rewrite (bool_decide_eq_true_2 _ Hl). cbn [negb].
      rewrite bool_decide_eq_false_2 by lia. done.
    + by rewrite (bool_decide_eq_false_2 _ Hl).
  - intros Hl Hr Hid.
    destruct (memcmp_spec 8 lhs rhs) as [(_ & _ & Heq)|(pre & x & y & a' & b' & H1 & H2 & Hxy & Hm & Hm')];
      [lia|lia|done|].
    assert (Z.of_N (Byte.to_N x) - Z.of_N (Byte.to_N y) ≠ 0) as Hne
      by (intros Hz; by apply byte_to_Z_inj in Hz).
    exists pre, x, y, a', b', (Z.of_N (Byte.to_N x) - Z.of_N (Byte.to_N y)),
      (Z.of_N (Byte.to_N y) - Z.of_N (Byte.to_N x)).
    unfold Compare, sizeof_TRI_idx_iid_t.
    rewrite !bool_decide_eq_true_2 by done. cbn [negb]. rewrite Hm, Hm'.
    rewrite !decide_True by lia.
    split_and!; try done; lia.
Qed.

Lemma lexicographic_zero (cmp : bytes → bytes → Z) :
  ∀ l r, lexicographic cmp l r = 0 ↔ Forall2 (λ a b, cmp a b = 0) l r.
Proof.
  induction l as [|x l IH]; intros [|y r]; simpl.
  - split; [constructor|done].
  - split; [done|intros Hf; inversion Hf].
  - split; [done|intros Hf; inversion Hf].
  - destruct (decide (cmp x y ≠ 0)) as [Hn|Hz].
    + split; [done|]. intros Hf. by apply Forall2_cons in Hf as [? _].
    + rewrite IH. split.
      * intros Hf. constructor; [|done]. by destruct (decide (cmp x y = 0)).
      * intros Hf. by apply Forall2_cons in Hf as [_ ?].
Qed.

(** X13.  When the index ids are equal, [Compare] first writes the two
    keys to the standard output, whatever follows.  It then asserts that
    both keys hold arrays and compares these member by member with
    [VelocyPackHelper::compare]: the first members that differ decide, and
    when one array is the beginning of the other the shorter one comes
    first.  The none-slice is never handed to the comparison, and the
    result is 0 exactly when the arrays have the same number of members
    and these compare equal one by one. *)
Theorem Compare_lexicographic (lhs rhs : bytes) (out : cstring) :
  (8 < length lhs)%nat → (8 < length rhs)%nat →
  take 8 lhs = take 8 rhs →
  ∃ out',
    Compare_output lhs rhs out = Some out'
    ∧ Compare lhs rhs out =
        (if isArray (extractKeySlice lhs) && isArray (extractKeySlice rhs)
         then CompareReturned
                (lexicographic (λ a b, VelocyPackHelper_compare a b true)
                   (VPack_members (extractKeySlice lhs))
                   (VPack_members (extractKeySlice rhs))) out'
         else CompareAssertFailed out')
    ∧ ∀ out'',
        Compare lhs rhs out = CompareReturned 0 out'' ↔
        (out'' = out'
         ∧ isArray (extractKeySlice lhs) = true
         ∧ isArray (extractKeySlice rhs) = true
         ∧ Forall2 (λ a b, VelocyPackHelper_compare a b true = 0)
             (VPack_members (extractKeySlice lhs))
             (VPack_members (extractKeySlice rhs))).
Proof.
  intros Hl Hr Hid.
  destruct (Compare_eq lhs rhs out Hl Hr Hid) as (out' & Hout & Hc).
  exists out'. split; [done|]. split; [done|].
  intros out''. rewrite Hc.
  destruct (isArray (extractKeySlice lhs)), (isArray (extractKeySlice rhs));
    cbn [andb]; try (split; [done|by intros (_ & ? & ? & _)]).
  rewrite <- (lexicographic_zero (λ a b, VelocyPackHelper_compare a b true)).
  split.
  - intros [= Hz ->]. by rewrite Hz.
  - intros (-> & _ & _ & Hz). by rewrite Hz.
Qed.

(** X14.  A key compares equal to itself: when it is longer than eight
    bytes, holds an array, and each member of the array compares equal to
    itself, [Compare] returns 0. *)
Theorem Compare_reflexive (s : bytes) (out : cstring) :
  (8 < length s)%nat →
  isArray (extractKeySlice s) = true →
  (∀ x, x ∈ VPack_members (extractKeySlice s) → VelocyPackHelper_compare x x true = 0) →
  ∃ out', Compare s s out = CompareReturned 0 out'.
Proof.
  intros Hl Harr Hrefl.
  destruct (Compare_eq s s out Hl Hl eq_refl) as (out' & _ & Hc).
  exists out'. rewrite Hc, Harr. cbn [andb].
  by rewrite lexicographic_refl.
Qed.

(** X15.  Swapping the arguments of [Compare] swaps the sign of the
    result, provided swapping those of [VelocyPackHelper::compare] does:
    for keys longer than eight bytes, either both comparisons return, with
    opposite signs, or both stop on an assertion. *)
Theorem Compare_antisymmetric (lhs rhs : bytes) (out : cstring) :
  (∀ a b, Z.sgn (VelocyPackHelper_compare a b true)
          = - Z.sgn (VelocyPackHelper_compare b a true)) →
  (8 < length lhs)%nat → (8 < length rhs)%nat →
  (∃ res res' out1 out2,
     Compare lhs rhs out = CompareReturned res out1
     ∧ Compare rhs lhs out = CompareReturned res' out2
     ∧ Z.sgn res' = - Z.sgn res)
  ∨ (∃ out1 out2,
       Compare lhs rhs out = CompareAssertFailed out1
       ∧ Compare rhs lhs out = CompareAssertFailed out2).
Proof.
  intros Hcmp Hl Hr.
  destruct (decide (take 8 lhs = take 8 rhs)) as [Hid|Hid].
  - destruct (Compare_eq lhs rhs out Hl Hr Hid) as (out1 & _ & H1).
    destruct (Compare_eq rhs lhs out Hr Hl (eq_sym Hid)) as (out2 & _ & H2).
    rewrite H1, H2.
    destruct (isArray (extractKeySlice lhs)), (isArray (extractKeySlice rhs));
      cbn [andb]; [left|right; by eauto..].
    do 4 eexists. split; [done|]. split; [done|].
    apply (lexicographic_antisym (λ a b, VelocyPackHelper_compare a b true)). done.
  - left.
    destruct (memcmp_spec 8 lhs rhs) as [(_ & _ & Heq)|(pre & x & y & a' & b' & H1 & H2 & Hxy & Hm & Hm')];
      [lia|lia|done|].
    assert (Z.of_N (Byte.to_N x) - Z.of_N (Byte.to_N y) ≠ 0) as Hne
      by (intros Hz; by apply byte_to_Z_inj in Hz).
    unfold Compare, sizeof_TRI_idx_iid_t.
    rewrite !bool_decide_eq_true_2 by done. cbn [negb]. rewrite Hm, Hm'.
    rewrite !decide_True by lia.
    do 4 eexists. split; [done|]. split; [done|]. lia.
Qed.

End ComparatorProperties.

(** * Concrete runs *)

#[local] Existing Instance demo_collaborators.

(** A write clause at the top level, with a list node as options. *)
Lemma configureWriteQuery_records_write_witness :
  AQL_QUERY_INSERT ≠ AQL_QUERY_READ
  ∧ Ast_isInSubQuery main_parser = Returned false main_parser
  ∧ queryType (_query main_parser) = AQL_QUERY_READ
  ∧ ∃ p',
      configureWriteQuery AQL_QUERY_INSERT 1 2 main_parser = Returned true p'
      ∧ writeCollection (_ast p') = 1%N
      ∧ queryType (_query p') = AQL_QUERY_INSERT
      ∧ errors (_query p') = [mkError TRI_ERROR_QUERY_COMPILE_TIME_OPTIONS None].
Proof.
  assert (AQL_QUERY_INSERT ≠ AQL_QUERY_READ) as H1 by discriminate.
  assert (Ast_isInSubQuery main_parser = Returned false main_parser) as H2 by reflexivity.
  assert (queryType (_query main_parser) = AQL_QUERY_READ) as H3 by reflexivity.
  destruct (configureWriteQuery_records_write AQL_QUERY_INSERT 1 2 main_parser H1 H2 H3)
    as (p' & Hcall & Hw & Ht & He & _).
  split_and!; try assumption.
  exists p'. split_and!; assumption.
Defined.

(** The REMOVE of [LET sub = (FOR y IN d REMOVE y IN d RETURN y) RETURN sub]. *)
Lemma configureWriteQuery_in_subquery_witness :
  AQL_QUERY_REMOVE ≠ AQL_QUERY_READ
  ∧ Ast_isInSubQuery subquery_parser = Returned true subquery_parser
  ∧ ∃ p',
      configureWriteQuery AQL_QUERY_REMOVE 1 nullptr subquery_parser = Returned false p'
      ∧ errors (_query p') = [mkError TRI_ERROR_QUERY_MODIFY_IN_SUBQUERY None]
      ∧ queryType (_query p') = AQL_QUERY_READ
      ∧ writeCollection (_ast p') = nullptr.
Proof.
  assert (AQL_QUERY_REMOVE ≠ AQL_QUERY_READ) as H1 by discriminate.
  assert (Ast_isInSubQuery subquery_parser = Returned true subquery_parser) as H2
    by reflexivity.
  destruct (configureWriteQuery_in_subquery AQL_QUERY_REMOVE 1 nullptr subquery_parser
              H1 H2) as (p' & Hcall & He & Ht & Hw & _).
  split_and!; try assumption.
  exists p'. split_and!; assumption.
Defined.


(** An accepted, balanced run from a parser that has not started. *)
Lemma parse_success_scopes_closed_witness :
  ∃ r p',
    parse accepted_run fresh_parser = Returned r p'
    ∧ length (scopes (_ast p')) = 0%nat
    ∧ r = assemble p'.
Proof.
  destruct (parse accepted_run fresh_parser) as [r p'|e p'| |] eqn:Hrun;
    [|vm_compute in Hrun; discriminate Hrun..].
  destruct (proj1 (parse_success_scopes_closed accepted_run fresh_parser) r p' Hrun)
    as (Hlen & Hres & _).
  exists r, p'. split_and!; [reflexivity|assumption..].
Defined.

(** The grammar accepts, leaving a value on the stack: [parse] returns all
    the same, with that value still on the stack. *)
Lemma parse_returns_with_nonempty_stack :
  ∃ r p',
    parse unbalanced_run fresh_parser = Returned r p'
    ∧ length (scopes (_ast p')) = 0%nat
    ∧ _stack p' = [2%N]
    ∧ _stack p' ≠ [].
Proof.
  do 2 eexists. split; [reflexivity|]. split; [reflexivity|]. split; [reflexivity|].
  discriminate.
Qed.

Lemma caret_marker_line_witness :
  0 <= 7 <= INT_MAX - 10
  ∧ make_arrowpointer 7 = Some (lit "      ^^^")
  ∧ length (caret_line 7) = 9%nat.
Proof.
  assert (0 <= 7 <= INT_MAX - 10) as H1 by (unfold INT_MAX; lia).
  destruct (caret_marker_line 7 H1) as (Hmake & _ & _ & Hlen & _).
  split_and!; try assumption; apply H1.
Defined.

(** At column 3 the marker is two spaces and three carets, not three spaces
    and two carets. *)
Lemma caret_line_at_column_3 :
  make_arrowpointer 3 = Some (lit "  ^^^")
  ∧ spec_caret_line 3 = lit "   ^^"
  ∧ make_arrowpointer 3 ≠ Some (spec_caret_line 3).
Proof. split; [reflexivity|]. split; [reflexivity|]. discriminate. Qed.

Lemma registerParseError_diagnostic_witness :
  TRI_ERROR_QUERY_PARSE ≠ TRI_ERROR_NO_ERROR
  ∧ 0 <= 8 <= INT_MAX - 10
  ∧ 0 <= 3 <= INT_MAX - 10
  ∧ registerParseError TRI_ERROR_QUERY_PARSE (Some (lit "syntax error")) 1 8 main_parser =
      Returned tt
        (add_error TRI_ERROR_QUERY_PARSE
           (Some (lit "syntax error near 'a:1} INTO c' at position 1:9:" ++ [NEWLINE]
                    ++ lit "INSERT {a:1} INTO c" ++ [NEWLINE]
                    ++ lit "       ^^^" ++ [NEWLINE]))
           main_parser)
  ∧ ∃ text,
      length text = 511%nat
      ∧ registerParseError TRI_ERROR_QUERY_PARSE (Some (lit "syntax error")) 1 3
                           boundary_query_parser =
          Returned tt (add_error TRI_ERROR_QUERY_PARSE (Some text) boundary_query_parser)
      ∧ (lit "syntax error near '" ++ replicate 32 "a"%char
           ++ lit "' at position 1:4:" ++ [NEWLINE]
           ++ queryString (_query boundary_query_parser) ++ [NEWLINE] ++ lit "  ^^^")
          `prefix_of` text.
Proof.
  assert (TRI_ERROR_QUERY_PARSE ≠ TRI_ERROR_NO_ERROR) as H1 by discriminate.
  assert (0 <= 8 <= INT_MAX - 10) as H2 by (unfold INT_MAX; lia).
  assert (0 <= 3 <= INT_MAX - 10) as H3 by (unfold INT_MAX; lia).
  destruct (registerParseError_diagnostic TRI_ERROR_QUERY_PARSE (lit "syntax error")
              1 8 main_parser H1 H2) as (head & text & Hhead & Htext & Hcall & _).
  destruct (registerParseError_diagnostic TRI_ERROR_QUERY_PARSE (lit "syntax error")
              1 3 boundary_query_parser H1 H3)
    as (head' & text' & Hhead' & Htext' & Hcall' & _ & _ & Hlong & _ & [_ Hmarker] & _).
  split_and!; try assumption; try apply H2; try apply H3.
  - rewrite Hcall, Htext, Hhead. reflexivity.
  - assert (length text' = 512%nat) as Hlen
      by (rewrite Htext', Hhead'; vm_compute; reflexivity).
    exists (take 511 text'). split_and!.
    + apply Hlong. rewrite Hlen. lia.
    + exact Hcall'.
    + assert (lit "syntax error near '" ++ replicate 32 "a"%char
                ++ lit "' at position 1:4:" ++ [NEWLINE]
                ++ queryString (_query boundary_query_parser) ++ [NEWLINE] ++ lit "  ^^^"
              = head' ++ queryString (_query boundary_query_parser) ++ [NEWLINE]
                  ++ caret_line 3) as ->
        by (rewrite Hhead'; vm_compute; reflexivity).
      apply Hmarker. rewrite Hlen. lia.
Defined.

(** With a query text of 600 characters the registered text is 511
    characters long: it stops inside the query text and holds no marker
    line. *)
Lemma long_query_diagnostic_is_cut :
  ∃ p' text,
    registerParseError TRI_ERROR_QUERY_PARSE (Some (lit "syntax error")) 1 3
                       long_query_parser = Returned tt p'
    ∧ errors (_query p') = [mkError TRI_ERROR_QUERY_PARSE (Some text)]
    ∧ length text = 511%nat
    ∧ text ≠ parse_error_text (lit "syntax error")
               (extractRegion (queryString (_query long_query_parser)) 1 3) 1 4
               (queryString (_query long_query_parser)) (caret_line 3)
    ∧ CARET ∉ text.
Proof.
  set (full := parse_error_text (lit "syntax error")
                 (extractRegion (queryString (_query long_query_parser)) 1 3) 1 4
                 (queryString (_query long_query_parser)) (caret_line 3)).
  exists (add_error TRI_ERROR_QUERY_PARSE (Some (snprintf 512 full)) long_query_parser),
         (snprintf 512 full).
  split.
  { rewrite registerParseError_eq, make_arrowpointer_eq by (unfold INT_MAX; lia).
    reflexivity. }
  split; [reflexivity|]. split; [vm_compute; reflexivity|]. split.
  - intros E. apply (f_equal length) in E. vm_compute in E. discriminate E.
  - apply (bool_decide_unpack _). vm_compute. exact I.
Qed.

(** The three ways out of [parse]: an accepted run, a rejected run and a
    run cut short by an exception. *)
Lemma parse_releases_scanner_once_witness :
  (∃ r p', parse accepted_run fresh_parser = Returned r p'
           ∧ lexerCalls p' = [CallLexInit; CallLexDestroy])
  ∧ (∃ p', parse rejected_run fresh_parser = Thrown TRI_ERROR_QUERY_PARSE p'
           ∧ lexerCalls p' = [CallLexInit; CallLexDestroy])
  ∧ (∃ p', parse interrupted_run fresh_parser = Thrown (TRI_ERROR_CODE 3) p'
           ∧ lexerCalls p' = [CallLexInit; CallLexDestroy]).
Proof.
  split_and!.
  - destruct (parse accepted_run fresh_parser) as [r p'|e p'| |] eqn:Hrun;
      [|vm_compute in Hrun; discriminate Hrun..].
    exists r, p'. split; [reflexivity|].
    exact (proj1 (proj1 (parse_releases_scanner_once accepted_run fresh_parser) p'
                        ltac:(rewrite Hrun; reflexivity))).
  - destruct (parse rejected_run fresh_parser) as [r p'|e p'| |] eqn:Hrun;
      [vm_compute in Hrun; discriminate Hrun| |vm_compute in Hrun; discriminate Hrun..].
    exists p'. split.
    + f_equal. vm_compute in Hrun. congruence.
    + exact (proj1 (proj1 (parse_releases_scanner_once rejected_run fresh_parser) p'
                          ltac:(rewrite Hrun; reflexivity))).
  - destruct (parse interrupted_run fresh_parser) as [r p'|e p'| |] eqn:Hrun;
      [vm_compute in Hrun; discriminate Hrun| |vm_compute in Hrun; discriminate Hrun..].
    exists p'. split.
    + f_equal. vm_compute in Hrun. congruence.
    + exact (proj1 (proj1 (parse_releases_scanner_once interrupted_run fresh_parser) p'
                          ltac:(rewrite Hrun; reflexivity))).
Defined.

(** A run rejected after a syntax error at column 8. *)
Lemma parse_grammar_failure_witness :
  ∃ q p',
    Aqlparse rejected_run (started fresh_parser) = Returned 1 q
    ∧ 1 ≠ 0
    ∧ parse rejected_run fresh_parser = Thrown TRI_ERROR_QUERY_PARSE p'
    ∧ scopes (_ast p') = [AQL_SCOPE_MAIN]
    ∧ lexerCalls p' = [CallLexInit; CallLexDestroy].
Proof.
  destruct (Aqlparse rejected_run (started fresh_parser)) as [rc q|e q| |] eqn:Hrun;
    [|vm_compute in Hrun; discriminate Hrun..].
  assert (rc = 1) as -> by (vm_compute in Hrun; congruence).
  assert (1 ≠ 0) as Hrc by discriminate.
  destruct (parse_grammar_failure rejected_run fresh_parser q 1 Hrun Hrc)
    as (Hparse & _ & Hcalls & _ & Hast & _ & Hscopes).
  exists q, (with_scanner ScannerDestroyed CallLexDestroy q).
  split_and!; try assumption; try reflexivity.
  rewrite Hast. apply Hscopes. repeat constructor.
Defined.

(** Two members pushed onto the list node on top of the stack. *)
Lemma pushList_pushArray_frame_witness :
  last (_stack list_on_top_parser) = Some 2%N
  ∧ nodes (_ast list_on_top_parser) !! 2%N = Some (mkAstNode NODE_TYPE_LIST [] [])
  ∧ ∃ p',
      perform_all (DoPushList <$> [4%N; 1%N]) list_on_top_parser = Returned tt p'
      ∧ _stack p' = [2%N]
      ∧ nodes (_ast p') !! 2%N = Some (mkAstNode NODE_TYPE_LIST [] [4%N; 1%N]).
Proof.
  assert (last (_stack list_on_top_parser) = Some 2%N) as H1 by reflexivity.
  assert (nodes (_ast list_on_top_parser) !! 2%N = Some (mkAstNode NODE_TYPE_LIST [] []))
    as H2 by reflexivity.
  destruct (pushList_pushArray_frame list_on_top_parser 2 _ H1 H2)
    as (_ & _ & _ & _ & _ & Hlist & _).
  destruct (Hlist eq_refl [4%N; 1%N]) as (p' & Hrun & Hstack & Htop & _).
  split_and!; try assumption.
  exists p'. split_and!; assumption.
Defined.

(** * Further concrete runs *)

Lemma stack_depth_balance_witness :
  ∃ q,
    perform_all (actions accepted_run) fresh_parser = Returned tt q
    ∧ (length (_stack q) + 1 = 0 + 1)%nat.
Proof.
  destruct (perform_all (actions accepted_run) fresh_parser) as [[] q|e q| |] eqn:Hrun;
    [|vm_compute in Hrun; discriminate Hrun..].
  destruct (stack_depth_balance _ _ _ Hrun) as [Hbal _].
  exists q. split; [reflexivity|exact Hbal].
Defined.

(** A balanced run from a parser that has not started, and a run that
    closes one scope from a parser with one scope active: [parse] returns
    in both cases. *)
Lemma parse_returns_iff_balanced_witness :
  (∃ q,
     perform_all (actions accepted_run) (started fresh_parser) = Returned tt q
     ∧ status accepted_run = 0
     ∧ ∃ r p', parse accepted_run fresh_parser = Returned r p')
  ∧ (∃ q,
       perform_all (actions closing_run) (started main_parser) = Returned tt q
       ∧ status closing_run = 0
       ∧ length (scopes (_ast main_parser)) = 1%nat
       ∧ ∃ r p', parse closing_run main_parser = Returned r p').
Proof.
  split.
  - destruct (perform_all (actions accepted_run) (started fresh_parser))
      as [[] q|e q| |] eqn:Hrun; [|vm_compute in Hrun; discriminate Hrun..].
    assert (status accepted_run = 0) as Hst by reflexivity.
    destruct (parse_returns_iff_balanced accepted_run fresh_parser q Hrun Hst)
      as (_ & [_ Hback] & _).
    exists q. split_and!; [reflexivity|assumption|].
    apply Hback. reflexivity.
  - destruct (perform_all (actions closing_run) (started main_parser))
      as [[] q|e q| |] eqn:Hrun; [|vm_compute in Hrun; discriminate Hrun..].
    assert (status closing_run = 0) as Hst by reflexivity.
    destruct (parse_returns_iff_balanced closing_run main_parser q Hrun Hst)
      as (_ & [_ Hback] & _).
    exists q. split_and!; [reflexivity|assumption|reflexivity|].
    apply Hback. reflexivity.
Defined.

Lemma new_parser_stack_witness :
  ∃ q,
    perform_all (actions accepted_run)
                (Parser_new (_query fresh_parser) (_ast fresh_parser)) = Returned tt q
    ∧ (length (_stack q) + 1 = 1)%nat
    ∧ popStack (Parser_new (_query fresh_parser) (_ast fresh_parser)) = AssertFailed.
Proof.
  destruct (perform_all (actions accepted_run)
              (Parser_new (_query fresh_parser) (_ast fresh_parser)))
    as [[] q|e q| |] eqn:Hrun; [|vm_compute in Hrun; discriminate Hrun..].
  destruct (new_parser_stack _ _ _ _ Hrun) as (Hpop & _ & _ & _ & _ & Hbal & _).
  exists q. split_and!; [reflexivity|exact Hbal|exact Hpop].
Defined.

(** Hooks, then [parse] with a run the grammar rejects, on a query that
    already holds an error: the new records come after it. *)
Lemma errors_append_only_witness :
  (∃ p',
     final (perform_all three_writes failed_main_parser) = Some p'
     ∧ errors (_query p') =
         [ earlier_error;
           mkError TRI_ERROR_QUERY_MODIFY_IN_SUBQUERY None;
           mkError TRI_ERROR_QUERY_MULTI_MODIFY None ]
     ∧ head (errors (_query p')) = Some earlier_error)
  ∧ (∃ p' text,
       parse rejected_run failed_fresh_parser = Thrown TRI_ERROR_QUERY_PARSE p'
       ∧ errors (_query p') = [earlier_error; mkError TRI_ERROR_QUERY_PARSE (Some text)]
       ∧ head (errors (_query p')) = Some earlier_error).
Proof.
  split.
  - destruct (final (perform_all three_writes failed_main_parser)) as [p'|] eqn:Hrun;
      [|vm_compute in Hrun; discriminate Hrun].
    destruct (proj1 (errors_append_only three_writes accepted_run failed_main_parser p')
                    Hrun) as (new & Hnew & _ & Hhead).
    exists p'. split_and!; [reflexivity| |exact (Hhead _ eq_refl)].
    vm_compute in Hrun. injection Hrun as <-. reflexivity.
  - destruct (parse rejected_run failed_fresh_parser) as [r p'|e p'| |] eqn:Hrun;
      [vm_compute in Hrun; discriminate Hrun| |vm_compute in Hrun; discriminate Hrun..].
    destruct (proj2 (errors_append_only [] rejected_run failed_fresh_parser p')
                    ltac:(rewrite Hrun; reflexivity)) as (new & Hnew & Hlen & Hhead).
    assert (e = TRI_ERROR_QUERY_PARSE) as -> by (vm_compute in Hrun; congruence).
    destruct new as [|[c [text|]] [|? ?]];
      try (vm_compute in Hrun; injection Hrun as <-; discriminate Hnew).
    exists p', text. split_and!; [reflexivity| |exact (Hhead _ eq_refl)].
    rewrite Hnew. vm_compute in Hrun. injection Hrun as <-.
    vm_compute in Hnew. injection Hnew as <- <-. reflexivity.
Defined.

Lemma parse_footprint_witness :
  ∃ p' q,
    final (parse rejected_run fresh_parser) = Some p'
    ∧ final (perform_all (actions rejected_run) (started fresh_parser)) = Some q
    ∧ _query p' = _query q
    ∧ _stack p' = _stack q.
Proof.
  destruct (final (parse rejected_run fresh_parser)) as [p'|] eqn:Hrun;
    [|vm_compute in Hrun; discriminate Hrun].
  destruct (parse_footprint rejected_run fresh_parser p' Hrun)
    as ((q & Hq & Hquery & Hstack & _) & _).
  exists p', q. split_and!; [reflexivity|assumption..].
Defined.

(** A write clause at the top level whose options are the list node. *)
Lemma configureWriteQuery_outcomes_witness :
  AQL_QUERY_INSERT ≠ AQL_QUERY_READ
  ∧ last (scopes (_ast main_parser)) ≠ Some AQL_SCOPE_SUBQUERY
  ∧ queryType (_query main_parser) = AQL_QUERY_READ
  ∧ (2%N = nullptr ∨ is_Some (nodes (_ast main_parser) !! 2%N))
  ∧ ∃ p', configureWriteQuery AQL_QUERY_INSERT 1 2 main_parser = Returned true p'.
Proof.
  assert (AQL_QUERY_INSERT ≠ AQL_QUERY_READ) as H1 by discriminate.
  assert (last (scopes (_ast main_parser)) ≠ Some AQL_SCOPE_SUBQUERY) as H2 by discriminate.
  assert (queryType (_query main_parser) = AQL_QUERY_READ) as H3 by reflexivity.
  assert (2%N = nullptr ∨ is_Some (nodes (_ast main_parser) !! 2%N)) as H4
    by (right; eexists; reflexivity).
  destruct (configureWriteQuery_outcomes AQL_QUERY_INSERT 1 2 main_parser)
    as (_ & _ & _ & Hback & _).
  split_and!; try assumption. exact (Hback H1 H2 H3 H4).
Defined.

Lemma parse_error_text_bounded_witness :
  ∃ p' text,
    registerParseError TRI_ERROR_QUERY_PARSE (Some (lit "syntax error")) 1 3
                       long_query_parser = Returned tt p'
    ∧ errors (_query p') = [mkError TRI_ERROR_QUERY_PARSE (Some text)]
    ∧ (length text ≤ 511)%nat.
Proof.
  destruct (registerParseError TRI_ERROR_QUERY_PARSE (Some (lit "syntax error")) 1 3
              long_query_parser) as [[] p'|e p'| |] eqn:Hrun;
    [|vm_compute in Hrun; discriminate Hrun..].
  destruct (proj1 (parse_error_text_bounded TRI_ERROR_QUERY_PARSE 1 3
                     long_query_parser p') _ Hrun) as (text & _ & Herr & Hlen).
  exists p', text. split_and!; [reflexivity|exact Herr|exact Hlen].
Defined.

Lemma caret_under_column_witness :
  0 <= 7 <= INT_MAX - 10
  ∧ ∃ arrowpointer,
      make_arrowpointer 7 = Some arrowpointer
      ∧ arrowpointer !! 7%nat = Some CARET.
Proof.
  assert (0 <= 7 <= INT_MAX - 10) as H1 by (unfold INT_MAX; lia).
  destruct (caret_under_column 7 H1) as (arrowpointer & Hmake & Hat & _).
  split; [exact H1|]. exists arrowpointer. split; [exact Hmake|exact Hat].
Defined.

Lemma pushList_pushArray_nodes_witness :
  ∃ p',
    pushList 4 list_on_top_parser = Returned tt p'
    ∧ dom (nodes (_ast p')) = dom (nodes (_ast list_on_top_parser))
    ∧ _stack p' = [2%N].
Proof.
  destruct (pushList 4 list_on_top_parser) as [[] p'|e p'| |] eqn:Hrun;
    [|vm_compute in Hrun; discriminate Hrun..].
  destruct (proj1 (pushList_pushArray_nodes list_on_top_parser p' [] 4) Hrun)
    as (_ & Hdom & _ & Hstack & _).
  exists p'. split_and!; [reflexivity|exact Hdom|exact Hstack].
Defined.

Lemma Dump_reads_back_witness :
  ∃ line,
    Dump key_8 [] = Some (lit "SLICE: size: 9, data: " ++ line)
    ∧ undump [] line = Some key_8
    ∧ DumpData key_8 10 [] = None.
Proof.
  destruct (Dump_reads_back key_8 []) as ((line & Hdump & _ & Hback) & _ & Hoob).
  exists line. split_and!; [exact Hdump|exact Hback|].
  apply Hoob. simpl. lia.
Defined.

#[local] Existing Instance demo_velocypack.

(** Index 7 against index 8. *)
Lemma Compare_index_id_first_witness :
  (8 < length key_7_a)%nat ∧ (8 < length key_8)%nat
  ∧ take 8 key_7_a ≠ take 8 key_8
  ∧ ∃ res, Compare key_7_a key_8 [] = CompareReturned res [] ∧ res < 0.
Proof.
  assert (8 < length key_7_a)%nat as H1 by (simpl; lia).
  assert (8 < length key_8)%nat as H2 by (simpl; lia).
  assert (take 8 key_7_a ≠ take 8 key_8) as H3 by discriminate.
  destruct (proj2 (Compare_index_id_first key_7_a key_8 []) H1 H2 H3)
    as (pre & x & y & l' & r' & res & res' & _ & _ & _ & Hc & _ & _ & _ & _ & _).
  split_and!; try assumption.
  exists res. split; [exact Hc|].
  vm_compute in Hc. injection Hc as <-. reflexivity.
Defined.

(** The arrays [3, 5] and [3, 5, 0] under the same index. *)
Lemma Compare_lexicographic_witness :
  (8 < length key_7_a)%nat ∧ (8 < length key_7_b)%nat
  ∧ take 8 key_7_a = take 8 key_7_b
  ∧ ∃ out', Compare key_7_a key_7_b [] = CompareReturned (-1) out'.
Proof.
  assert (8 < length key_7_a)%nat as H1 by (simpl; lia).
  assert (8 < length key_7_b)%nat as H2 by (simpl; lia).
  assert (take 8 key_7_a = take 8 key_7_b) as H3 by reflexivity.
  destruct (Compare_lexicographic key_7_a key_7_b [] H1 H2 H3) as (out' & _ & Hc & _).
  split_and!; try assumption.
  exists out'. rewrite Hc. reflexivity.
Defined.

Lemma Compare_reflexive_witness :
  (8 < length key_7_a)%nat
  ∧ isArray (extractKeySlice key_7_a) = true
  ∧ ∃ out', Compare key_7_a key_7_a [] = CompareReturned 0 out'.
Proof.
  assert (8 < length key_7_a)%nat as H1 by (simpl; lia).
  assert (isArray (extractKeySlice key_7_a) = true) as H2 by reflexivity.
  assert (∀ x, x ∈ VPack_members (extractKeySlice key_7_a) →
               VelocyPackHelper_compare x x true = 0) as H3
    by (intros x _; simpl; lia).
  split_and!; try assumption.
  exact (Compare_reflexive key_7_a [] H1 H2 H3).
Defined.

Lemma Compare_antisymmetric_witness :
  (∃ res res' out1 out2,
     Compare key_7_a key_7_b [] = CompareReturned res out1
     ∧ Compare key_7_b key_7_a [] = CompareReturned res' out2
     ∧ Z.sgn res' = - Z.sgn res)
  ∨ (∃ out1 out2,
       Compare key_7_a key_7_b [] = CompareAssertFailed out1
       ∧ Compare key_7_b key_7_a [] = CompareAssertFailed out2).
Proof.
  apply Compare_antisymmetric.
  - intros a b. simpl. lia.
  - simpl. lia.
  - simpl. lia.
Defined.
